(** * Countdown Audio Builder: a shallow embedding of [countdown_builder.py]

    The development follows the Python module top to bottom: the helpers
    ([prep], [make_beep], the text-to-speech retry loop and its on-disk
    cache), the [Settings] record, the two assemblers
    ([build_minutes_countdown] and [build_countdown_audio]) and [main].
    The validation performed by the desktop front end
    ([countdown_gui.py], [generate_countdown]) is embedded as well, and
    so is the job control of the web front end ([countdown_web.py],
    [start_generation]).

    Modelling conventions.
    - Python [int] is [Z]; a finite Python [float] is the rational it
      denotes, in [Q]; the product of two floats is rounded to binary64
      ([float_mul]); [int(x)] on a float is truncation toward zero.
      Infinities and NaN are not represented.
    - Exceptions are the left summand of the result; side effects (files,
      network requests, sleeps) are threaded through a [World].
    - pydub, ffmpeg, gTTS, hashlib and json are external collaborators:
      pydub is an interface ([AudioBackend]) about which nothing is
      assumed, the others are section variables.
    - Directories ([mkdir]) and console output ([print]) are left out. *)

From Stdlib Require Import ZArith QArith List String Ascii Sorted Lia.
From stdpp Require Import base gmap strings list pretty.

Local Open Scope string_scope.
Local Open Scope list_scope.
Local Open Scope Z_scope.

(** ** Python values *)

Definition bytes : Type := list Byte.byte.

(** [int(x)] for a float [x]: truncation toward zero. *)
Definition py_int (x : Q) : Z := Z.quot (Qnum x) (Zpos (Qden x)).

(** [a / b] rounded to the nearest integer, ties to even, for [0 < b]. *)
Definition round_half_even (a b : Z) : Z :=
  let q := a / b in
  let r := a mod b in
  if 2 * r <? b then q
  else if b <? 2 * r then q + 1
  else if Z.even q then q else q + 1.

(** The exponent of the last mantissa bit of the binary64 float nearest
    to [n / d], for positive [n] and [d]: the [e] with
    [2^52 <= n / d / 2^e < 2^53], but not below the exponent [-1074] of
    the subnormals. *)
Definition float64_exponent (n d : Z) : Z :=
  let e0 := Z.log2 n - Z.log2 d - 52 in
  let q := if 0 <=? e0 then n / (d * 2 ^ e0) else (n * 2 ^ (- e0)) / d in
  Z.max (if q <? 2 ^ 52 then e0 - 1 else e0) (-1074).

(** The binary64 float nearest to the rational [x], ties to even.  It
    is what [float(text)] makes of a decimal numeral.  Overflow to an
    infinity is not represented. *)
Definition float64 (x : Q) : Q :=
  let n := Z.abs (Qnum x) in
  let d := Zpos (Qden x) in
  if n =? 0 then 0%Q else
  let e := float64_exponent n d in
  let v := if 0 <=? e
           then inject_Z (round_half_even n (d * 2 ^ e) * 2 ^ e)
           else Qred (round_half_even (n * 2 ^ (- e)) d
                      # Z.to_pos (2 ^ (- e))) in
  if Qnum x <? 0 then (- v)%Q else v.

(** [x * y] on floats: the exact product, rounded.  An [int] operand is
    converted first, which [float64] does as well. *)
Definition float_mul (x y : Q) : Q := float64 (float64 x * float64 y).

Arguments float_mul x y : simpl never.

(** Truthiness of an optional string ([if settings.lead_in:]): [None] and
    the empty string are falsy. *)
Definition truthy_str (o : option string) : option string :=
  match o with
  | Some s => if decide (s = "") then None else Some s
  | None => None
  end.

(** [needle in s] for strings. *)
Fixpoint str_contains (needle s : string) : bool :=
  String.prefix needle s ||
  match s with
  | EmptyString => false
  | String _ rest => str_contains needle rest
  end.

(** [s.replace(old, new)] for a non-empty [old]: leftmost, non-overlapping
    occurrences.  [skip] counts the characters of a matched occurrence
    that are still to be dropped. *)
Fixpoint str_replace_go (old new s : string) (skip : nat) : string :=
  match s with
  | EmptyString => EmptyString
  | String c rest =>
      match skip with
      | S k => str_replace_go old new rest k
      | O =>
          if String.prefix old s
          then new +:+ str_replace_go old new rest (Nat.pred (String.length old))
          else String c (str_replace_go old new rest O)
      end
  end.

Definition str_replace (old new s : string) : string :=
  str_replace_go old new s O.

(** [s.split(sep)] for a one-character separator. *)
Fixpoint split_go (sep : ascii) (l cur : list ascii) : list (list ascii) :=
  match l with
  | [] => [rev cur]
  | c :: l' =>
      if Ascii.eqb c sep then rev cur :: split_go sep l' []
      else split_go sep l' (c :: cur)
  end.

Definition str_split (sep : ascii) (s : string) : list string :=
  map string_of_list_ascii (split_go sep (list_ascii_of_string s) []).

(** ASCII white space, as [str.isspace] has it. *)
Definition is_space (c : ascii) : bool :=
  let n := nat_of_ascii c in
  ((9 <=? n) && (n <=? 13) || (28 <=? n) && (n <=? 32))%nat.

Fixpoint lstrip (l : list ascii) : list ascii :=
  match l with
  | c :: l' => if is_space c then lstrip l' else l
  | [] => []
  end.

(** [s.strip()] *)
Definition str_strip (s : string) : string :=
  string_of_list_ascii (rev (lstrip (rev (lstrip (list_ascii_of_string s))))).

(** All results of [f] on [l], or nothing if one is missing: a list
    comprehension whose body may raise. *)
Fixpoint map_all {A B} (f : A -> option B) (l : list A) : option (list B) :=
  match l with
  | [] => Some []
  | x :: l' =>
      match f x, map_all f l' with
      | Some y, Some ys => Some (y :: ys)
      | _, _ => None
      end
  end.

(** ** Exceptions *)

#[warnings="-register-all"]
Inductive exn : Type :=
| TTSError                                   (* gTTS request failed *)
| CouldntDecodeError                         (* pydub could not decode *)
| FileNotFoundError (path : string)
| OSError (path : string)                    (* a write failed *)
| ValueError (msg : string)
| RuntimeError (text : string) (last_err : option exn).

(** ** The audio library (pydub) as an interface

    Nothing is assumed about the operations: pydub counts frames, so
    that [len] rounds to whole milliseconds and lengths need not add up
    under concatenation.  The operations are total here; the calls that
    pydub refuses (a fade of duration 0, a tone of negative duration)
    are outside the model. *)

Class AudioBackend : Type := {
  AudioSegment : Type;
  (** [len(seg)], in milliseconds *)
  seg_len : AudioSegment -> Z;
  (** [a + b], concatenation *)
  seg_add : AudioSegment -> AudioSegment -> AudioSegment;
  (** [AudioSegment.silent(duration=ms, frame_rate=hz)] *)
  silent : Z -> Z -> AudioSegment;
  (** [Sine(freq).to_audio_segment(duration=ms)] *)
  sine : Z -> Z -> AudioSegment;
  apply_gain : Q -> AudioSegment -> AudioSegment;
  normalize : AudioSegment -> AudioSegment;
  fade_in : Z -> AudioSegment -> AudioSegment;
  fade_out : Z -> AudioSegment -> AudioSegment;
  set_channels : Z -> AudioSegment -> AudioSegment;
  set_frame_rate : Z -> AudioSegment -> AudioSegment;
  (** decoders and encoders ([from_mp3], [from_wav], [export]) *)
  decode_mp3 : bytes -> option AudioSegment;
  encode_mp3 : option string -> AudioSegment -> bytes;
  decode_wav : bytes -> option AudioSegment;
  encode_wav : AudioSegment -> bytes
}.

(** ** The world: files, the request counter of the speech service, and a
    log of what happened *)

Inductive write_site : Type :=
| TtsTmp        (* tts_to_file: the temporary download *)
| CacheStore    (* tts_cached: seg.export(mp3_path) *)
| TmpWav        (* main: audio.export(tmp_wav) *)
| AudioOut      (* main: final.export(settings.outfile) *)
| TimelineOut.  (* main: json.dump(timeline, f) *)

Inductive event : Type :=
| EvRequest (text lang tld : string) (ok : bool)
| EvSleep (secs : Q)
| EvWrite (site : write_site) (path : string).

Record World : Type := mkWorld {
  fs : gmap string bytes;
  log : list event                (* oldest first *)
}.

Definition is_request (e : event) : bool :=
  match e with EvRequest _ _ _ _ => true | _ => false end.

Definition count_requests (l : list event) : nat :=
  length (List.filter is_request l).

(** Number of speech requests issued so far. *)
Definition requests (w : World) : nat := count_requests (log w).

Definition sleeps (l : list event) : list Q :=
  omap (fun e => match e with EvSleep q => Some q | _ => None end) l.

(** ** The effect monad: state plus exceptions *)

Definition M (A : Type) : Type := World -> (exn + A) * World.

Definition ret {A} (a : A) : M A := fun w => (inr a, w).

Definition raise {A} (e : exn) : M A := fun w => (inl e, w).

Definition bind {A B} (m : M A) (f : A -> M B) : M B :=
  fun w =>
    match m w with
    | (inr a, w') => f a w'
    | (inl e, w') => (inl e, w')
    end.

(** [try: m  except Exception as e: h e] *)
Definition try_except {A} (m : M A) (h : exn -> M A) : M A :=
  fun w =>
    match m w with
    | (inr a, w') => (inr a, w')
    | (inl e, w') => h e w'
    end.

Declare Scope io_scope.
Delimit Scope io_scope with io.
Notation "x <- c1 ;; c2" := (bind c1 (fun x => c2))
  (at level 100, c1 at next level, right associativity) : io_scope.
Notation "c1 ;; c2" := (bind c1 (fun _ => c2))
  (at level 100, right associativity) : io_scope.
Local Open Scope io_scope.

Definition emit (e : event) : M unit :=
  fun w => (inr tt, mkWorld (fs w) (log w ++ [e])).

(** ** Paths (pathlib) *)

(** [str(Path(s))]: empty and ["."] components and a trailing slash are
    dropped, exactly two leading slashes are kept, and the empty path is
    ["."]. *)
Definition Path (s : string) : string :=
  let parts :=
    List.filter (fun c => negb (String.eqb c "" || String.eqb c "."))
      (str_split "/" s) in
  let root :=
    if String.prefix "///" s then "/"
    else if String.prefix "//" s then "//"
    else if String.prefix "/" s then "/"
    else "" in
  let body := String.concat "/" parts in
  if String.eqb root "" && String.eqb body "" then "." else root +:+ body.

(** [d / name] *)
Definition path_join (d name : string) : string := d +:+ "/" +:+ name.

Fixpoint index_of (c : ascii) (l : list ascii) : option nat :=
  match l with
  | [] => None
  | x :: l' => if Ascii.eqb x c then Some O else option_map S (index_of c l')
  end.

(** [p.name]: the final component; the name of ["."] is empty. *)
Definition path_name (p : string) : list ascii :=
  if decide (p = ".") then []
  else
    let r := rev (list_ascii_of_string p) in
    match index_of "/"%char r with
    | Some j => rev (take j r)
    | None => rev r
    end.

(** Length of [p.suffix]: with [i = name.rfind('.')], the suffix is
    [name[i:]] when [0 < i < len(name) - 1] and empty otherwise. *)
Definition suffix_length (name : list ascii) : nat :=
  match index_of "."%char (rev name) with
  | Some j =>
      if (0 <? j)%nat && (j <? length name - 1)%nat then S j else O
  | None => O
  end.

(** [p.with_suffix(suffix)]; [None] stands for the [ValueError] pathlib
    raises on an empty name. *)
Definition with_suffix (p suffix : string) : option string :=
  match path_name p with
  | [] => None
  | name =>
      let chars := list_ascii_of_string p in
      Some (string_of_list_ascii
              (take (length chars - suffix_length name) chars) +:+ suffix)
  end.

(** ** Configuration and timeline *)

Record Settings : Type := mkSettings {
  start : Z;
  interval : Q;
  long_interval : Q;
  every_n : Z;
  lang : string;
  tld : string;
  beep_freq : Z;
  beep_ms : Z;
  beep_gain : Q;
  fade_ms : Z;
  outfile : string;
  out_bitrate : string;
  lead_in : option string;
  lead_in_gap_ms : Z;
  rest_text : string;
  skip_first_rest : Z;
  end_with : option string;
  mode : string;                  (* "numbers" or "minutes" *)
  speak_interval : Z;             (* speak every N minutes (0 = all) *)
  speak_at : option (list Z);     (* speak at specific minutes *)
  minute_text : string
}.

(** The namespace [argparse] hands to [parse_args]: one attribute per
    option, converted by its [type=]; [--speak-at] is still a string. *)
Record Namespace : Type := mkNamespace {
  a_start : Z;
  a_mode : string;
  a_interval : Q;
  a_long_interval : Q;
  a_every_n : Z;
  a_speak_interval : Z;
  a_speak_at : option string;
  a_minute_text : string;
  a_lang : string;
  a_tld : string;
  a_beep_freq : Z;
  a_beep_ms : Z;
  a_beep_gain : Q;
  a_fade_ms : Z;
  a_outfile : string;
  a_out_bitrate : string;
  a_lead_in : option string;
  a_lead_in_gap_ms : Z;
  a_rest_text : string;
  a_skip_first_rest : Z;
  a_end_with : option string
}.

(** The part of the desktop window that [generate_countdown] reads: the
    flag [is_generating] and the two entries it validates, where [None]
    stands for a content that [IntVar.get()] or [DoubleVar.get()] refuse
    with [tk.TclError]. *)
Record Gui : Type := mkGui {
  is_generating : bool;
  start_var : option Z;
  interval_var : option Q
}.

(** How a call of [generate_countdown] ends. *)
Inductive gui_outcome : Type :=
| Ignored                     (* a generation is running: plain return *)
| ShowError (msg : string)    (* [messagebox.showerror("Error", msg)] *)
| Started.                    (* the worker thread was started *)

(** A timeline entry, [{"label": .., "start": .., "end": ..}]. *)
Record TimelineEntry : Type := mkEntry {
  e_label : string;
  e_start : Z;
  e_end : Z
}.

Section Builder.

Context `{AB : AudioBackend}.

(** [hashlib.md5(s.encode("utf-8")).hexdigest()] *)
Variable md5_hexdigest : string -> string.

(** The speech service: the [n]-th request (counting from 0) for
    [text], [lang], [tld] either downloads an MP3 or fails. *)
Variable gtts : nat -> string -> string -> string -> option bytes.

(** Whether a path can be written. *)
Variable can_write : string -> bool.

(** The name [tempfile.TemporaryDirectory()] hands out. *)
Variable td : string.

(** [json.dump(timeline, f, indent=2)] as bytes. *)
Variable json_dump : list TimelineEntry -> bytes.

(** [int(s)] on a string; nothing when it raises [ValueError]. *)
Variable int_of_str : string -> option Z.

(** *** Files *)

Definition write_file (site : write_site) (path : string) (b : bytes) : M unit :=
  fun w =>
    if can_write path
    then (inr tt, mkWorld (<[path := b]> (fs w)) (log w ++ [EvWrite site path]))
    else (inl (OSError path), w).

Definition read_file (path : string) : M bytes :=
  fun w =>
    match fs w !! path with
    | Some b => (inr b, w)
    | None => (inl (FileNotFoundError path), w)
    end.

Definition exists_file (path : string) : M bool :=
  fun w => (inr (bool_decide (is_Some (fs w !! path))), w).

(** [AudioSegment.from_mp3(path)] *)
Definition from_mp3 (path : string) : M AudioSegment :=
  b <- read_file path ;;
  match decode_mp3 b with
  | Some seg => ret seg
  | None => raise CouldntDecodeError
  end.

Definition from_wav (path : string) : M AudioSegment :=
  b <- read_file path ;;
  match decode_wav b with
  | Some seg => ret seg
  | None => raise CouldntDecodeError
  end.

(** [with tempfile.TemporaryDirectory() as td: body]: the directory and
    the files the program puts there are removed on exit, also when
    [body] raises. *)
Definition with_tempdir {A} (files : list string) (body : string -> M A) : M A :=
  fun w =>
    let '(r, w') := body td w in
    (r, mkWorld (foldr (fun f m => delete (path_join td f) m) (fs w') files) (log w')).

(** [time.sleep(secs)] *)
Definition sleep (secs : Q) : M unit :=
  if Qle_bool 0 secs then emit (EvSleep secs)
  else raise (ValueError "sleep length must be non-negative").

(** *** Helpers *)

Definition TARGET_RATE : Z := 44100.

Definition prep (seg : AudioSegment) (fade_ms : Z) : AudioSegment :=
  set_frame_rate TARGET_RATE
    (set_channels 1 (fade_out fade_ms (fade_in fade_ms (normalize seg)))).

Definition make_beep (freq_hz ms : Z) (gain_db : Q) : AudioSegment :=
  prep (apply_gain gain_db (sine freq_hz ms)) 12.

Definition tts_to_file (text path lang tld : string) : M unit :=
  fun w =>
    match gtts (requests w) text lang tld with
    | Some b =>
        write_file TtsTmp path b
          (mkWorld (fs w) (log w ++ [EvRequest text lang tld true]))
    | None =>
        (inl TTSError, mkWorld (fs w) (log w ++ [EvRequest text lang tld false]))
    end.

(** The body of [for attempt in range(retries)], for the [n] attempts
    that remain. *)
Fixpoint retry_loop (text out_mp3 lang tld : string) (retries : Z) (delay : Q)
    (n : nat) (attempt : Z) (last_err : option exn) : M AudioSegment :=
  match n with
  | O => raise (RuntimeError text last_err)
  | S n' =>
      try_except
        (tts_to_file text out_mp3 lang tld ;; from_mp3 out_mp3)
        (fun e =>
           (if attempt <? retries - 1
            then sleep (delay * inject_Z (attempt + 1))
            else ret tt) ;;
           retry_loop text out_mp3 lang tld retries delay n' (attempt + 1) (Some e))
  end.

(** What the [try] block of an attempt yields when it issues request
    number [idx]: the decoded download, or nothing when the request, the
    write of the download or its decoding fails. *)
Definition attempt_at (text out_mp3 lang tld : string) (idx : nat)
    : option AudioSegment :=
  match gtts idx text lang tld with
  | Some b => if can_write out_mp3 then decode_mp3 b else None
  | None => None
  end.

(** The sleeps after the failed attempts [j0], [j0 + 1], ... ([m] of
    them). *)
Definition backoff (delay : Q) (j0 m : nat) : list Q :=
  map (fun j => (delay * inject_Z (Z.of_nat j + 1))%Q) (seq j0 m).

Definition tts_with_retry_to_audiosegment
    (text tmpdir lang tld : string) (retries : Z) (delay : Q) : M AudioSegment :=
  let out_mp3 := path_join tmpdir "tts_tmp.mp3" in
  retry_loop text out_mp3 lang tld retries delay (Z.to_nat retries) 0 None.

Definition cache_key (text lang tld : string) : string :=
  md5_hexdigest (lang +:+ "|" +:+ tld +:+ "|" +:+ text).

(** [cache_dir / f"{key}.mp3"] *)
Definition cache_path (cache_dir text lang tld : string) : string :=
  let key := cache_key text lang tld in
  path_join cache_dir (key +:+ ".mp3").

Definition tts_cached
    (text cache_dir tmpdir lang tld : string) (retries : Z) (delay : Q)
    : M AudioSegment :=
  let mp3_path := cache_path cache_dir text lang tld in
  present <- exists_file mp3_path ;;
  (if present then ret tt
   else
     seg <- tts_with_retry_to_audiosegment text tmpdir lang tld retries delay ;;
     write_file CacheStore mp3_path (encode_mp3 None seg)) ;;
  from_mp3 mp3_path.

(** *** Assembly *)

Definition should_speak_minute (minute : Z) (settings : Settings) : bool :=
  match speak_at settings with
  | Some (x :: l) => bool_decide (minute ∈ x :: l)
  | _ =>
      if 0 <? speak_interval settings
      then (minute mod speak_interval settings =? 0) || (minute =? 1)
      else true
  end.

(** The local variables of an assembler: [combined], [timeline], [t_ms]
    and [skipped_rests]. *)
Record BuildState : Type := mkState {
  combined : AudioSegment;
  timeline : list TimelineEntry;
  t_ms : Z;
  skipped_rests : Z
}.

(** The three statements that both assemblers repeat for every cue:
    [combined += seg], [timeline.append({label, t_ms, t_ms + dur})],
    [t_ms += dur]. *)
Definition append_cue (lbl : string) (seg : AudioSegment) (dur : Z)
    (st : BuildState) : BuildState :=
  {| combined := seg_add (combined st) seg;
     timeline := timeline st ++ [mkEntry lbl (t_ms st) (t_ms st + dur)];
     t_ms := t_ms st + dur;
     skipped_rests := skipped_rests st |}.

Definition count_skipped_rest (st : BuildState) : BuildState :=
  {| combined := combined st;
     timeline := timeline st;
     t_ms := t_ms st;
     skipped_rests := skipped_rests st + 1 |}.

(** [prep(tts_cached(text, cache_dir, tmpdir, settings.lang, settings.tld),
    settings.fade_ms)], with the default [retries=3, delay=1.2]. *)
Definition speech (settings : Settings) (cache_dir tmpdir text : string)
    : M AudioSegment :=
  raw <- tts_cached text cache_dir tmpdir (lang settings) (tld settings) 3 1.2%Q ;;
  ret (prep raw (fade_ms settings)).

Definition initial_state : BuildState :=
  {| combined := silent 0 TARGET_RATE; timeline := []; t_ms := 0;
     skipped_rests := 0 |}.

(** The lead-in block; its text is the same in both assemblers. *)
Definition lead_in_block (settings : Settings) (cache_dir tmpdir : string)
    (st : BuildState) : M BuildState :=
  match truthy_str (lead_in settings) with
  | Some txt =>
      lead <- speech settings cache_dir tmpdir txt ;;
      let st := append_cue txt lead (seg_len lead) st in
      ret (if 0 <? lead_in_gap_ms settings
           then append_cue "lead_gap" (silent (lead_in_gap_ms settings) 11025)
                  (lead_in_gap_ms settings) st
           else st)
  | None => ret st
  end.

(** The block after the final count; the same in both assemblers. *)
Definition end_block (settings : Settings) (cache_dir tmpdir : string)
    (st : BuildState) : M BuildState :=
  match truthy_str (end_with settings) with
  | Some txt =>
      end_seg <- speech settings cache_dir tmpdir txt ;;
      ret (append_cue txt end_seg (seg_len end_seg) st)
  | None => ret st
  end.

(** [for i in range(n, 0, -1): body], where [body] answers [true] when it
    ran into [break]. *)
Fixpoint for_range_down (n : nat) (body : Z -> BuildState -> M (bool * BuildState))
    (st : BuildState) : M BuildState :=
  match n with
  | O => ret st
  | S k =>
      r <- body (Z.of_nat (S k)) st ;;
      if fst r then ret (snd r) else for_range_down k body (snd r)
  end.

Definition is_rest_boundary (settings : Settings) (i : Z) : bool :=
  (0 <? every_n settings) && (i mod every_n settings =? 0).

(** **** Numbers mode *)

(** "Determine rest vs normal" of [build_countdown_audio]. *)
Definition countdown_boundary (settings : Settings)
    (rest_seg beep : AudioSegment) (i : Z) (st : BuildState) : BuildState :=
  if is_rest_boundary settings i then
    if skipped_rests st <? skip_first_rest settings then
      let st := count_skipped_rest st in
      let st := append_cue "beep_skip_rest" beep (seg_len beep) st in
      let gap_ms := py_int (float_mul (interval settings) 1000) in
      append_cue "pause_skip_rest" (silent gap_ms 11025) gap_ms st
    else
      let st := append_cue (rest_text settings) rest_seg (seg_len rest_seg) st in
      let st := append_cue "beep" beep (seg_len beep) st in
      let gap_ms := py_int (float_mul (long_interval settings) 1000) in
      append_cue "pause_long" (silent gap_ms 11025) gap_ms st
  else
    let st := append_cue "beep" beep (seg_len beep) st in
    let gap_ms := py_int (float_mul (interval settings) 1000) in
    append_cue "pause" (silent gap_ms 11025) gap_ms st.

Definition countdown_iteration (settings : Settings) (cache_dir tmpdir : string)
    (rest_seg beep : AudioSegment) (i : Z) (st : BuildState)
    : M (bool * BuildState) :=
  spoken <- speech settings cache_dir tmpdir (pretty i) ;;
  let st := append_cue (pretty i) spoken (seg_len spoken) st in
  if i =? 1 then
    st <- end_block settings cache_dir tmpdir st ;;
    ret (true, st)
  else ret (false, countdown_boundary settings rest_seg beep i st).

Definition build_countdown_audio (settings : Settings) (cache_dir : string)
    : M (AudioSegment * list TimelineEntry) :=
  with_tempdir ["tts_tmp.mp3"] (fun tmpdir =>
    rest_seg <- speech settings cache_dir tmpdir (rest_text settings) ;;
    let beep := make_beep (beep_freq settings) (beep_ms settings)
                  (beep_gain settings) in
    st <- lead_in_block settings cache_dir tmpdir initial_state ;;
    st <- for_range_down (Z.to_nat (start settings))
            (countdown_iteration settings cache_dir tmpdir rest_seg beep) st ;;
    ret (combined st, timeline st)).

(** **** Minutes mode *)

Definition minute_label (settings : Settings) (i : Z) : string :=
  if i =? 1 then
    if str_contains "minutes" (minute_text settings)
    then "1 " +:+ str_replace "minutes" "minute" (minute_text settings)
    else "1 " +:+ minute_text settings
  else pretty i +:+ " " +:+ minute_text settings.

(** [int(60000 if should_speak_minute(i, settings) else
    settings.interval * 1000)] *)
Definition minute_gap_ms (settings : Settings) (i : Z) : Z :=
  if should_speak_minute i settings then 60000
  else py_int (float_mul (interval settings) 1000).

(** "Determine rest vs normal interval" of [build_minutes_countdown].
    [if rest_seg:] is false for [None] and, [AudioSegment] having a
    length, for a segment of length 0. *)
Definition minutes_boundary (settings : Settings)
    (rest_seg : option AudioSegment) (beep : AudioSegment) (i : Z)
    (st : BuildState) : BuildState :=
  if is_rest_boundary settings i then
    if skipped_rests st <? skip_first_rest settings then
      let st := count_skipped_rest st in
      let st := append_cue "beep_skip_rest" beep (seg_len beep) st in
      let gap_ms := minute_gap_ms settings i in
      append_cue "pause_skip_rest" (silent gap_ms 11025) gap_ms st
    else
      let st :=
        match rest_seg with
        | Some r =>
            if seg_len r =? 0 then st
            else append_cue (rest_text settings) r (seg_len r) st
        | None => st
        end in
      let st := append_cue "beep" beep (seg_len beep) st in
      let gap_ms := py_int (float_mul (long_interval settings) 1000) in
      append_cue "pause_long" (silent gap_ms 11025) gap_ms st
  else
    let st := append_cue "beep" beep (seg_len beep) st in
    let gap_ms := minute_gap_ms settings i in
    append_cue "pause" (silent gap_ms 11025) gap_ms st.

Definition minutes_iteration (settings : Settings) (cache_dir tmpdir : string)
    (rest_seg : option AudioSegment) (beep : AudioSegment) (i : Z)
    (st : BuildState) : M (bool * BuildState) :=
  st <- (if should_speak_minute i settings then
           let text := minute_label settings i in
           spoken <- speech settings cache_dir tmpdir text ;;
           ret (append_cue text spoken (seg_len spoken) st)
         else ret st) ;;
  if i =? 1 then
    st <- end_block settings cache_dir tmpdir st ;;
    ret (true, st)
  else ret (false, minutes_boundary settings rest_seg beep i st).

Definition build_minutes_countdown (settings : Settings) (cache_dir : string)
    : M (AudioSegment * list TimelineEntry) :=
  with_tempdir ["tts_tmp.mp3"] (fun tmpdir =>
    rest_seg <- (if 0 <? every_n settings
                 then r <- speech settings cache_dir tmpdir (rest_text settings) ;;
                      ret (Some r)
                 else ret None) ;;
    let beep := make_beep (beep_freq settings) (beep_ms settings)
                  (beep_gain settings) in
    st <- lead_in_block settings cache_dir tmpdir initial_state ;;
    st <- for_range_down (Z.to_nat (start settings))
            (minutes_iteration settings cache_dir tmpdir rest_seg beep) st ;;
    ret (combined st, timeline st)).

(** *** CLI *)

(** [parse_args] after [p.parse_args(argv)]: the comma-separated
    [--speak-at] is converted, [--outfile] becomes a [Path], and every
    other attribute is copied into the record as it is. *)
Definition parse_args (args : Namespace) : exn + Settings :=
  let speak_at_list :=
    match truthy_str (a_speak_at args) with
    | Some str =>
        match map_all (fun x => int_of_str (str_strip x)) (str_split "," str) with
        | Some l => inr (Some l)
        | None =>
            inl (ValueError
                   "--speak-at must be comma-separated integers (e.g., '30,15,10,5,1')")
        end
    | None => inr None
    end in
  match speak_at_list with
  | inl e => inl e
  | inr speak_at_list =>
      inr {| start := a_start args;
             interval := a_interval args;
             long_interval := a_long_interval args;
             every_n := a_every_n args;
             lang := a_lang args;
             tld := a_tld args;
             beep_freq := a_beep_freq args;
             beep_ms := a_beep_ms args;
             beep_gain := a_beep_gain args;
             fade_ms := a_fade_ms args;
             outfile := Path (a_outfile args);
             out_bitrate := a_out_bitrate args;
             lead_in := a_lead_in args;
             lead_in_gap_ms := a_lead_in_gap_ms args;
             rest_text := a_rest_text args;
             skip_first_rest := a_skip_first_rest args;
             end_with := a_end_with args;
             mode := a_mode args;
             speak_interval := a_speak_interval args;
             speak_at := speak_at_list;
             minute_text := a_minute_text args |}
  end.

(** [main], from the [Settings] that [parse_args] returned. *)
Definition main (settings : Settings) : M Z :=
  ready <- try_except
             (let _probe := silent 10 TARGET_RATE in ret None)
             (fun _ => ret (Some 2)) ;;
  match ready with
  | Some code => ret code
  | None =>
      let cache_dir := "tts_cache" in
      built <- (if decide (mode settings = "minutes")
                then build_minutes_countdown settings cache_dir
                else build_countdown_audio settings cache_dir) ;;
      let '(audio, timeline) := built in
      with_tempdir ["combined.wav"] (fun tmp =>
        let tmp_wav := path_join tmp "combined.wav" in
        write_file TmpWav tmp_wav (encode_wav audio) ;;
        final <- from_wav tmp_wav ;;
        write_file AudioOut (outfile settings)
          (encode_mp3 (Some (out_bitrate settings)) final)) ;;
      match with_suffix (outfile settings) ".json" with
      | None => raise (ValueError "empty name")
      | Some timeline_path =>
          write_file TimelineOut timeline_path (json_dump timeline) ;;
          ret 0
      end
  end.

(** *** Desktop front end ([countdown_gui.py]) *)

(** The "Validate inputs" block of [generate_countdown]: the message of
    the error dialog, if any. *)
Definition gui_validate (settings : Settings) : option string :=
  if start settings <=? 0 then Some "Starting number must be positive"
  else if Qle_bool (interval settings) 0 then Some "Interval must be positive"
  else None.

(** [generate_countdown], up to the start of the worker thread: the
    guard on [is_generating], the validation with its [tk.TclError]
    branch (the start entry is read first, the interval entry only when
    the start is positive), and the check that the script exists.  The
    buttons, the progress bar and the status label are left out. *)
Definition generate_countdown (g : Gui) (w : World) : gui_outcome * Gui :=
  if is_generating g then (Ignored, g)
  else
    match start_var g with
    | None => (ShowError "Please enter valid numbers", g)
    | Some n =>
        if n <=? 0 then (ShowError "Starting number must be positive", g)
        else
          match interval_var g with
          | None => (ShowError "Please enter valid numbers", g)
          | Some x =>
              if Qle_bool x 0 then (ShowError "Interval must be positive", g)
              else if bool_decide (is_Some (fs w !! "countdown_builder.py"))
              then (Started, mkGui true (start_var g) (interval_var g))
              else (ShowError
                      "countdown_builder.py not found in current directory", g)
          end
    end.

End Builder.

Arguments should_speak_minute minute settings : simpl never.

(** ** Web front end ([countdown_web.py]) *)

(** [CountdownWebHandler.generation_status] *)
Record Status : Type := mkStatus {
  running : bool;
  message : string;
  file : option string
}.

(** The handler class together with the worker threads that
    [start_generation] has started and that have not stored their result
    yet, each with the form data it was given. *)
Record Server : Type := mkServer {
  generation_status : Status;
  threads : list (gmap string (list string))
}.

(** [param_map], in the order the loop visits it. *)
Definition param_map : list (string * string) :=
  [("start", "--start"); ("interval", "--interval");
   ("long_interval", "--long-interval"); ("every_n", "--every-n");
   ("lang", "--lang"); ("tld", "--tld"); ("beep_freq", "--beep-freq");
   ("beep_ms", "--beep-ms"); ("beep_gain", "--beep-gain");
   ("fade_ms", "--fade-ms"); ("outfile", "--outfile");
   ("out_bitrate", "--out-bitrate"); ("lead_in", "--lead-in");
   ("lead_in_gap_ms", "--lead-in-gap-ms"); ("rest_text", "--rest-text");
   ("skip_first_rest", "--skip-first-rest"); ("end_with", "--end-with")].

(** The list of the "numeric parameters" in the loop's condition. *)
Definition numeric_params : list string :=
  ["start"; "interval"; "long_interval"; "every_n"; "beep_freq"; "beep_ms";
   "beep_gain"; "fade_ms"; "lead_in_gap_ms"; "skip_first_rest"].

Section Web.

(** [sys.executable] *)
Variable executable : string.

(** [subprocess.run(cmd, capture_output=True, text=True)]: the return
    code with the captured output and error streams, or the text of the
    exception it raised. *)
Variable subprocess_run : list string -> string + (Z * string * string).

(** One turn of [for param, flag in param_map.items()]; [None] stands
    for the [IndexError] of [params[param][0]] on an empty list. *)
Definition add_param (params : gmap string (list string))
    (cmd : list string) (entry : string * string) : option (list string) :=
  let '(param, flag) := entry in
  match params !! param with
  | None => Some cmd
  | Some [] => None
  | Some (v :: _) =>
      let value := str_strip v in
      if negb (String.eqb value "") || bool_decide (param ∈ numeric_params)
      then if negb (String.eqb value "")
           then Some (cmd ++ [flag; value])
           else Some cmd
      else Some cmd
  end.

(** The command that [generate] builds. *)
Definition generate_cmd (params : gmap string (list string))
    : option (list string) :=
  foldl (fun acc entry =>
           match acc with
           | Some cmd => add_param params cmd entry
           | None => None
           end)
    (Some [executable; "countdown_builder.py"]) param_map.

(** The status that the worker thread ([generate]) stores when it is
    done; every exception ends in the [except Exception] branch. *)
Definition generate (params : gmap string (list string)) : Status :=
  match generate_cmd params with
  | None => mkStatus false "Error: list index out of range" None
  | Some cmd =>
      match subprocess_run cmd with
      | inl err => mkStatus false ("Error: " +:+ err) None
      | inr (returncode, stdout, stderr) =>
          if returncode =? 0 then
            match default ["countdown_combined.mp3"] (params !! "outfile") with
            | outfile :: _ =>
                mkStatus false "Generation completed successfully!" (Some outfile)
            | [] => mkStatus false "Error: list index out of range" None
            end
          else
            mkStatus false
              ("Generation failed: " +:+
               (if String.eqb stderr "" then stdout else stderr))
              None
      end
  end.

(** [start_generation]: nothing happens while a generation is running;
    otherwise the status is set and a worker thread is started. *)
Definition start_generation (params : gmap string (list string))
    (sv : Server) : Server :=
  if running (generation_status sv) then sv
  else mkServer (mkStatus true "Generating..." None) (threads sv ++ [params]).

(** The server as the class is loaded. *)
Definition initial_server : Server := mkServer (mkStatus false "Ready" None) [].

(** What can happen next: a form is posted to [/generate], or one of the
    worker threads stores its result. *)
Inductive server_step : Server -> Server -> Prop :=
| step_post params sv :
    server_step sv (start_generation params sv)
| step_done l1 params l2 sv :
    threads sv = l1 ++ params :: l2 ->
    server_step sv (mkServer (generate params) (l1 ++ l2)).

Inductive reachable : Server -> Prop :=
| reach_initial : reachable initial_server
| reach_step sv sv' : reachable sv -> server_step sv sv' -> reachable sv'.

(** The arguments a form field contributes to the command. *)
Definition field_args (params : gmap string (list string))
    (entry : string * string) : list string :=
  match params !! entry.1 with
  | Some (v :: _) =>
      if String.eqb (str_strip v) "" then [] else [entry.2; str_strip v]
  | _ => []
  end.

End Web.

(** ** A small executable backend

    A segment is a list of chunks, each with a kind and a duration in
    milliseconds; an encoded file has one byte per 100 ms of audio; the
    digest is the identity on its input.  It is used to run the
    assemblers on concrete configurations. *)

Module Toy.

Inductive kind : Type := Voice | Tone | Silence.

Definition seg : Type := list (kind * Z).

Definition duration (s : seg) : Z := foldr (fun c acc => snd c + acc) 0 s.

Definition decode (b : bytes) : option seg :=
  Some [(Voice, 100 * Z.of_nat (length b))].

Definition encode (s : seg) : bytes :=
  repeat Byte.x07 (Z.to_nat (duration s / 100)).

Definition tone (ms : Z) : seg := [(Tone, Z.max 0 ms)].

#[export] Instance backend : AudioBackend := {|
  AudioSegment := seg;
  seg_len := duration;
  seg_add := fun a b => app a b;
  silent := fun d _ => [(Silence, Z.max 0 d)];
  sine := fun _ ms => tone ms;
  apply_gain := fun _ s => s;
  normalize := fun s => s;
  fade_in := fun _ s => s;
  fade_out := fun _ s => s;
  set_channels := fun _ s => s;
  set_frame_rate := fun _ s => s;
  decode_mp3 := decode;
  encode_mp3 := fun _ s => encode s;
  decode_wav := decode;
  encode_wav := encode
|}.

Definition digest (s : string) : string := s.

(** A service that always answers: one byte per character. *)
Definition service (n : nat) (text lang tld : string) : option bytes :=
  Some (repeat Byte.x07 (String.length text)).

(** A service that cannot speak one given text. *)
Definition service_without (bad : string) (n : nat) (text lang tld : string)
    : option bytes :=
  if decide (text = bad) then None else service n text lang tld.

(** A service whose first [k] requests fail. *)
Definition service_after (k : nat) (n : nat) (text lang tld : string)
    : option bytes :=
  if (n <? k)%nat then None else service n text lang tld.

Definition writable (p : string) : bool := true.

(** Unsigned decimal numerals. *)
Fixpoint decimal_go (l : list ascii) (acc : Z) : option Z :=
  match l with
  | [] => Some acc
  | c :: l' =>
      let n := Z.of_nat (nat_of_ascii c) in
      if (48 <=? n) && (n <=? 57) then decimal_go l' (10 * acc + (n - 48))
      else None
  end.

Definition decimal (s : string) : option Z :=
  match list_ascii_of_string s with
  | [] => None
  | l => decimal_go l 0
  end.

(** The namespace of [--start n --mode m], with [--speak-at list] when a
    list is given; every other option has its default. *)
Definition options (n : Z) (m : string) (list : option string) : Namespace :=
  {| a_start := n; a_mode := m; a_interval := 3.5;
     a_long_interval := 8.0; a_every_n := 8; a_speak_interval := 0;
     a_speak_at := list; a_minute_text := "minutes remaining";
     a_lang := "en"; a_tld := "com"; a_beep_freq := 1000; a_beep_ms := 300;
     a_beep_gain := (-6.0)%Q; a_fade_ms := 12;
     a_outfile := "countdown_combined.mp3"; a_out_bitrate := "192k";
     a_lead_in := None; a_lead_in_gap_ms := 1000; a_rest_text := "rest";
     a_skip_first_rest := 0; a_end_with := None |}.

(** The command line without options. *)
Definition no_options : Namespace := options 80 "numbers" None.

Definition dump (tl : list TimelineEntry) : bytes :=
  flat_map (fun e => [Byte.x7b; Byte.x7d]) tl.

Definition empty_world : World := mkWorld ∅ [].

Definition defaults : Settings :=
  {| start := 80; interval := 3.5; long_interval := 8.0; every_n := 8;
     lang := "en"; tld := "com"; beep_freq := 1000; beep_ms := 300;
     beep_gain := (-6.0)%Q; fade_ms := 12; outfile := "countdown_combined.mp3";
     out_bitrate := "192k"; lead_in := None; lead_in_gap_ms := 1000;
     rest_text := "rest"; skip_first_rest := 0; end_with := None;
     mode := "numbers"; speak_interval := 0; speak_at := None;
     minute_text := "minutes remaining" |}.

Definition with_counts (s : Settings) (n every skip : Z) : Settings :=
  {| start := n; interval := interval s; long_interval := long_interval s;
     every_n := every; lang := lang s; tld := tld s; beep_freq := beep_freq s;
     beep_ms := beep_ms s; beep_gain := beep_gain s; fade_ms := fade_ms s;
     outfile := outfile s; out_bitrate := out_bitrate s; lead_in := lead_in s;
     lead_in_gap_ms := lead_in_gap_ms s; rest_text := rest_text s;
     skip_first_rest := skip; end_with := end_with s; mode := mode s;
     speak_interval := speak_interval s; speak_at := speak_at s;
     minute_text := minute_text s |}.

Definition with_interval (s : Settings) (secs : Q) : Settings :=
  {| start := start s; interval := secs; long_interval := long_interval s;
     every_n := every_n s; lang := lang s; tld := tld s;
     beep_freq := beep_freq s; beep_ms := beep_ms s; beep_gain := beep_gain s;
     fade_ms := fade_ms s; outfile := outfile s; out_bitrate := out_bitrate s;
     lead_in := lead_in s; lead_in_gap_ms := lead_in_gap_ms s;
     rest_text := rest_text s; skip_first_rest := skip_first_rest s;
     end_with := end_with s; mode := mode s;
     speak_interval := speak_interval s; speak_at := speak_at s;
     minute_text := minute_text s |}.

Definition with_speak_at (s : Settings) (l : list Z) : Settings :=
  {| start := start s; interval := interval s; long_interval := long_interval s;
     every_n := every_n s; lang := lang s; tld := tld s;
     beep_freq := beep_freq s; beep_ms := beep_ms s; beep_gain := beep_gain s;
     fade_ms := fade_ms s; outfile := outfile s; out_bitrate := out_bitrate s;
     lead_in := lead_in s; lead_in_gap_ms := lead_in_gap_ms s;
     rest_text := rest_text s; skip_first_rest := skip_first_rest s;
     end_with := end_with s; mode := "minutes";
     speak_interval := speak_interval s; speak_at := Some l;
     minute_text := minute_text s |}.

Definition with_long_interval (s : Settings) (secs : Q) : Settings :=
  {| start := start s; interval := interval s; long_interval := secs;
     every_n := every_n s; lang := lang s; tld := tld s;
     beep_freq := beep_freq s; beep_ms := beep_ms s; beep_gain := beep_gain s;
     fade_ms := fade_ms s; outfile := outfile s; out_bitrate := out_bitrate s;
     lead_in := lead_in s; lead_in_gap_ms := lead_in_gap_ms s;
     rest_text := rest_text s; skip_first_rest := skip_first_rest s;
     end_with := end_with s; mode := mode s;
     speak_interval := speak_interval s; speak_at := speak_at s;
     minute_text := minute_text s |}.

Definition with_phrases (s : Settings) (lead final : option string)
    : Settings :=
  {| start := start s; interval := interval s; long_interval := long_interval s;
     every_n := every_n s; lang := lang s; tld := tld s;
     beep_freq := beep_freq s; beep_ms := beep_ms s; beep_gain := beep_gain s;
     fade_ms := fade_ms s; outfile := outfile s; out_bitrate := out_bitrate s;
     lead_in := lead; lead_in_gap_ms := lead_in_gap_ms s;
     rest_text := rest_text s; skip_first_rest := skip_first_rest s;
     end_with := final; mode := mode s;
     speak_interval := speak_interval s; speak_at := speak_at s;
     minute_text := minute_text s |}.

(** A service that never answers. *)
Definition no_service (n : nat) (text lang tld : string) : option bytes := None.

Definition tmp : string := "/tmp/td".
Definition cache : string := "tts_cache".

(** The runs used below, from an empty cache. *)
Definition numbers_run svc (s : Settings) :=
  build_countdown_audio (AB:=backend) digest svc writable tmp s cache empty_world.

Definition minutes_run svc (s : Settings) :=
  build_minutes_countdown (AB:=backend) digest svc writable tmp s cache empty_world.

Definition main_run svc (s : Settings) :=
  main (AB:=backend) digest svc writable tmp dump s empty_world.

Definition retry_run svc (retries : Z) :=
  tts_with_retry_to_audiosegment (AB:=backend) svc writable
    "rest" tmp "en" "com" retries 1.2%Q empty_world.

Definition cached_run svc (text lang tld : string) (w : World) :=
  tts_cached (AB:=backend) digest svc writable text cache tmp lang tld 3 1.2%Q w.

(** The labels of the timeline a run returned. *)
Definition labels_of (r : (exn + seg * list TimelineEntry) * World)
    : option (list string) :=
  match fst r with
  | inr (_, tl) => Some (map e_label tl)
  | inl _ => None
  end.

Definition audio_of (r : (exn + seg * list TimelineEntry) * World) : seg :=
  match fst r with inr (a, _) => a | inl _ => [] end.

Definition timeline_of (r : (exn + seg * list TimelineEntry) * World)
    : list TimelineEntry :=
  match fst r with inr (_, tl) => tl | inl _ => [] end.



(** The configuration of the skip-first-rest example. *)
Definition skip_example : Settings := with_counts defaults 8 4 1.

Definition skip_run := numbers_run service skip_example.

End Toy.

(** ** Vocabulary of the statements *)

(** The entries of [tl] follow one another without gap or overlap,
    starting at offset [a]. *)
Fixpoint contiguous_from (a : Z) (tl : list TimelineEntry) : Prop :=
  match tl with
  | [] => True
  | e :: tl' => e_start e = a /\ contiguous_from (e_end e) tl'
  end.

(** The offset reached after the entries of [tl], starting at [a]. *)
Fixpoint end_from (a : Z) (tl : list TimelineEntry) : Z :=
  match tl with
  | [] => a
  | e :: tl' => end_from (e_end e) tl'
  end.

(** The track obtained by appending [segs] in order to [base]. *)
Definition concat_onto `{AudioBackend} (base : AudioSegment)
    (segs : list AudioSegment) : AudioSegment :=
  fold_left seg_add segs base.

(** The labels of the silences. *)
Definition gap_labels : list string :=
  ["lead_gap"; "pause"; "pause_long"; "pause_skip_rest"].

(** Entry [e] records the appended segment [seg]: either it spans
    [len(seg)], or [seg] is a silence, [e] has the label of one, and it
    spans the number of milliseconds the silence was asked for. *)
Definition records `{AudioBackend} (e : TimelineEntry) (seg : AudioSegment)
    : Prop :=
  e_end e = e_start e + seg_len seg \/
  exists d, seg = silent d 11025 /\ e_end e = e_start e + d /\
            e_label e ∈ gap_labels.

(** The running state is consistent with the segments appended so far:
    the track is their concatenation, each entry records its segment,
    the entries are contiguous from 0, and the running offset is the end
    of the last entry. *)
Definition well_timed `{AudioBackend} (st : BuildState)
    (segs : list AudioSegment) : Prop :=
  combined st = concat_onto (silent 0 TARGET_RATE) segs /\
  Forall2 records (timeline st) segs /\
  contiguous_from 0 (timeline st) /\
  end_from 0 (timeline st) = t_ms st.

(** The invariant of both assemblers. *)
Definition timed `{AudioBackend} (st : BuildState) : Prop :=
  exists segs, well_timed st segs.

(** Events an assembler may cause: requests, sleeps, and writes of the
    temporary download and of the cache. *)
Definition assembly_event (e : event) : Prop :=
  match e with
  | EvWrite TmpWav _ | EvWrite AudioOut _ | EvWrite TimelineOut _ => False
  | _ => True
  end.

(** [w'] is [w] with more events, all of them in [P]. *)
Definition log_extends (P : event -> Prop) (w w' : World) : Prop :=
  exists evs, log w' = log w ++ evs /\ Forall P evs.

Definition emits {A} (P : event -> Prop) (m : M A) : Prop :=
  forall w r w', m w = (r, w') -> log_extends P w w'.

(** Every file of the speech cache can be decoded. *)
Definition cache_decodes `{AudioBackend} (md5 : string -> string)
    (cache_dir : string) (w : World) : Prop :=
  forall text lang tld b,
    fs w !! cache_path md5 cache_dir text lang tld = Some b ->
    is_Some (decode_mp3 b).

(** From a world in [good], [m] returns a value and stays in [good]. *)
Definition succeeds {A} (good : World -> Prop) (m : M A) : Prop :=
  forall w, good w -> exists a w', m w = (inr a, w') /\ good w'.

(** The labels strictly between the first [a] and the next [b]. *)
Fixpoint labels_until (b : string) (l : list string) : list string :=
  match l with
  | [] => []
  | x :: l' => if decide (x = b) then [] else x :: labels_until b l'
  end.

Fixpoint labels_between (a b : string) (l : list string) : list string :=
  match l with
  | [] => []
  | x :: l' => if decide (x = a) then labels_until b l' else labels_between a b l'
  end.

(** [m] never changes or removes a file other than [tmp]. *)
Definition keeps {A} (tmp : string) (m : M A) : Prop :=
  forall w r w' p b,
    m w = (r, w') -> p <> tmp -> fs w !! p = Some b -> fs w' !! p = Some b.

(** Every entry of the speech cache in [w] is still there in [w']. *)
Definition cache_grows `{AudioBackend} (md5 : string -> string)
    (cache_dir : string) (w w' : World) : Prop :=
  forall text lang tld b,
    fs w !! cache_path md5 cache_dir text lang tld = Some b ->
    fs w' !! cache_path md5 cache_dir text lang tld = Some b.

(** A successful run of [m] only adds to the cache, and run again in any
    world that holds the cache it left, [m] returns the same value and
    leaves that world as it is. *)
Definition replays `{AudioBackend} (md5 : string -> string)
    (cache_dir : string) {A} (m : M A) : Prop :=
  forall w a w',
    m w = (inr a, w') ->
    cache_grows md5 cache_dir w w' /\
    forall wf, cache_grows md5 cache_dir w' wf -> m wf = (inr a, wf).

(** The labels of the lead-in block and of the end block. *)
Definition lead_in_labels (s : Settings) : list string :=
  match truthy_str (lead_in s) with
  | Some txt => if 0 <? lead_in_gap_ms s then [txt; "lead_gap"] else [txt]
  | None => []
  end.

Definition end_labels (s : Settings) : list string :=
  match truthy_str (end_with s) with
  | Some txt => [txt]
  | None => []
  end.

(** The labels of a countdown from [n] without rests: every count but
    the last is followed by a beep and a pause. *)
Fixpoint plain_labels (n : nat) : list string :=
  match n with
  | O => []
  | S k =>
      match k with
      | O => [pretty (Z.of_nat n)]
      | S _ => [pretty (Z.of_nat n); "beep"; "pause"] ++ plain_labels k
      end
  end.

(** The number of rest boundaries among the counts above [i], up to
    [n]. *)
Definition rests_above (s : Settings) (n i : nat) : nat :=
  length (List.filter (fun j => is_rest_boundary s (Z.of_nat j))
            (seq (S i) (n - i))).

(** The labels a countdown from [n] records for the count [i]: the count
    itself, then the end phrase after the last count, or the cue of its
    boundary, where a rest boundary is skipped when fewer than
    [skip_first_rest] rest boundaries lie above it. *)
Definition count_labels (s : Settings) (n i : nat) : list string :=
  pretty (Z.of_nat i) ::
  if (i =? 1)%nat then end_labels s
  else if is_rest_boundary s (Z.of_nat i) then
    if Z.of_nat (rests_above s n i) <? skip_first_rest s
    then ["beep_skip_rest"; "pause_skip_rest"]
    else [rest_text s; "beep"; "pause_long"]
  else ["beep"; "pause"].

(** ** The monad *)

Lemma bind_inr {A B} (m : M A) (f : A -> M B) w b w' :
  bind m f w = (inr b, w') ->
  exists a w1, m w = (inr a, w1) /\ f a w1 = (inr b, w').
Proof.
  unfold bind. destruct (m w) as [[e|a] w1] eqn:E; [discriminate|].
  intros H. exists a, w1. split; [reflexivity|exact H].
Qed.

Lemma bind_inl {A B} (m : M A) (f : A -> M B) w e w1 :
  m w = (inl e, w1) -> bind m f w = (inl e, w1).
Proof. unfold bind. intros ->. reflexivity. Qed.

Lemma bind_run {A B} (m : M A) (f : A -> M B) w a w1 :
  m w = (inr a, w1) -> bind m f w = f a w1.
Proof. unfold bind. intros ->. reflexivity. Qed.

Lemma ret_inr {A} (a b : A) w w' : ret a w = (inr b, w') -> a = b /\ w = w'.
Proof. unfold ret. intros H. inversion H. auto. Qed.

(** ** Floats *)

Lemma py_int_whole x k : (x == inject_Z k)%Q -> py_int x = k.
Proof.
  unfold Qeq, py_int. cbn. intros H. rewrite Z.mul_1_r in H. rewrite H.
  apply Z.quot_mul. lia.
Qed.

Lemma round_half_even_exact c b : 0 < b -> round_half_even (c * b) b = c.
Proof.
  intros Hb. unfold round_half_even.
  rewrite Z.mod_mul, Z.div_mul by lia.
  destruct (Z.ltb_spec (2 * 0) b); [reflexivity|lia].
Qed.

Lemma float64_exponent_whole k d :
  1 <= k < 2 ^ 53 -> 0 < d -> float64_exponent (k * d) d <= 0.
Proof.
  intros Hk Hd. unfold float64_exponent.
  set (e0 := Z.log2 (k * d) - Z.log2 d - 52).
  assert (He0 : e0 <= 1).
  { unfold e0.
    pose proof (Z.log2_mul_above k d ltac:(lia) ltac:(lia)).
    assert (Z.log2 k < 53) by (apply Z.log2_lt_pow2; lia). lia. }
  cbv zeta. destruct (Z.leb_spec 0 e0) as [Hp|Hp].
  - destruct (Z.ltb_spec (k * d / (d * 2 ^ e0)) (2 ^ 52)) as [|Hq]; [lia|].
    assert (e0 = 0 \/ e0 = 1) as [->| ->] by lia; [lia|]. exfalso.
    rewrite (Z.mul_comm k d), Z.div_mul_cancel_l in Hq by lia.
    change (2 ^ 1) with 2 in Hq.
    assert (k / 2 < 2 ^ 52).
    { apply Z.div_lt_upper_bound; [lia|].
      change (2 * 2 ^ 52) with (2 ^ 53). lia. }
    lia.
  - destruct (_ <? _); lia.
Qed.

(** [float64] leaves a whole number below [2^53] as it is, in whatever
    form it is written. *)
Lemma float64_whole x k :
  (x == inject_Z k)%Q -> Z.abs k < 2 ^ 53 -> (float64 x == inject_Z k)%Q.
Proof.
  intros Hx Hk. unfold Qeq in Hx. cbn in Hx. rewrite Z.mul_1_r in Hx.
  unfold float64. rewrite Hx.
  set (d := Z.pos (Qden x)) in *. assert (Hd : 0 < d) by (unfold d; lia).
  rewrite Z.abs_mul, (Z.abs_eq d) by lia.
  destruct (Z.eqb_spec (Z.abs k * d) 0) as [H0|H0].
  { assert (k = 0) by nia. subst k. reflexivity. }
  assert (Hk1 : 1 <= Z.abs k < 2 ^ 53) by nia.
  cbv zeta.
  pose proof (float64_exponent_whole (Z.abs k) d Hk1 Hd) as He.
  set (e := float64_exponent (Z.abs k * d) d) in *.
  assert (Hv : ((if 0 <=? e
                 then inject_Z (round_half_even (Z.abs k * d) (d * 2 ^ e) * 2 ^ e)
                 else Qred (round_half_even (Z.abs k * d * 2 ^ (- e)) d
                            # Z.to_pos (2 ^ (- e))))
                == inject_Z (Z.abs k))%Q).
  { destruct (Z.leb_spec 0 e).
    - assert (e = 0) as -> by lia. change (2 ^ 0) with 1. rewrite !Z.mul_1_r.
      rewrite round_half_even_exact by lia. reflexivity.
    - replace (Z.abs k * d * 2 ^ (- e)) with (Z.abs k * 2 ^ (- e) * d) by ring.
      rewrite round_half_even_exact by lia.
      rewrite Qred_correct. unfold Qeq. cbn.
      rewrite Z2Pos.id by (apply Z.pow_pos_nonneg; lia). lia. }
  destruct (Z.ltb_spec (k * d) 0) as [Hneg|Hpos]; rewrite Hv;
    unfold Qeq; cbn; nia.
Qed.

(** When [x * 1000] is a whole number of milliseconds, [int(x * 1000)]
    is that number. *)
Lemma float_mul_whole_ms x k :
  (float64 x == x)%Q -> (x * 1000 == inject_Z k)%Q -> Z.abs k < 2 ^ 53 ->
  py_int (float_mul x 1000) = k.
Proof.
  intros Hx Hk Hb. apply py_int_whole. unfold float_mul.
  apply float64_whole; [|exact Hb].
  assert (H1000 : (float64 1000 == 1000)%Q) by (vm_compute; reflexivity).
  rewrite Hx, H1000. exact Hk.
Qed.

(** ** Facts about the builder

    The collaborators are arbitrary throughout. *)

Section Facts.

#[local] Set Default Proof Using "Type".

Context `{AB : AudioBackend}.
Variable md5_hexdigest : string -> string.
Variable gtts : nat -> string -> string -> string -> option bytes.
Variable can_write : string -> bool.
Variable td : string.
Variable json_dump : list TimelineEntry -> bytes.

Local Abbreviation tts_to_file := (tts_to_file gtts can_write).
Local Abbreviation retry_loop := (retry_loop gtts can_write).
Local Abbreviation attempt_at := (attempt_at gtts can_write).
Local Abbreviation tts_with_retry_to_audiosegment :=
  (tts_with_retry_to_audiosegment gtts can_write).
Local Abbreviation cache_key := (cache_key md5_hexdigest).
Local Abbreviation cache_path := (cache_path md5_hexdigest).
Local Abbreviation tts_cached := (tts_cached md5_hexdigest gtts can_write).
Local Abbreviation speech := (speech md5_hexdigest gtts can_write).
Local Abbreviation lead_in_block := (lead_in_block md5_hexdigest gtts can_write).
Local Abbreviation end_block := (end_block md5_hexdigest gtts can_write).
Local Abbreviation countdown_iteration :=
  (countdown_iteration md5_hexdigest gtts can_write).
Local Abbreviation minutes_iteration :=
  (minutes_iteration md5_hexdigest gtts can_write).
Local Abbreviation build_countdown_audio :=
  (build_countdown_audio md5_hexdigest gtts can_write td).
Local Abbreviation build_minutes_countdown :=
  (build_minutes_countdown md5_hexdigest gtts can_write td).
Local Abbreviation main := (main md5_hexdigest gtts can_write td json_dump).
Local Abbreviation write_file := (write_file can_write).

(** *** Minute selection *)

(** C4. For every minute [m >= 1]: with a configured (non-empty)
    speak-set the minute is spoken exactly when it is in the set;
    otherwise, with [speak_interval > 0], exactly when it is a multiple of
    the interval or is minute 1; otherwise always. *)
Theorem should_speak_minute_decision (m : Z) (s : Settings) :
  1 <= m ->
  (forall l : list Z, speak_at s = Some l -> l <> [] ->
     (should_speak_minute m s = true <-> m ∈ l)) /\
  (speak_at s = None \/ speak_at s = Some [] ->
     0 < speak_interval s ->
     (should_speak_minute m s = true <->
      (m mod speak_interval s = 0 \/ m = 1))) /\
  (speak_at s = None \/ speak_at s = Some [] ->
     speak_interval s <= 0 ->
     should_speak_minute m s = true).
Proof.
  intros _. unfold should_speak_minute. split; [|split].
  - intros l Hl Hne. rewrite Hl. destruct l as [|x l']; [contradiction|].
    apply bool_decide_eq_true.
  - intros Hat Hpos.
    assert (Hb : (0 <? speak_interval s) = true) by (apply Z.ltb_lt; lia).
    destruct Hat as [-> | ->]; rewrite Hb, orb_true_iff, !Z.eqb_eq; reflexivity.
  - intros Hat Hnon.
    assert (Hb : (0 <? speak_interval s) = false) by (apply Z.ltb_ge; lia).
    destruct Hat as [-> | ->]; rewrite Hb; reflexivity.
Qed.

(** *** Gaps of the minutes assembler *)

Lemma minutes_iteration_boundary s cache tmp rest beep i st w b st' w' :
  i <> 1 ->
  minutes_iteration s cache tmp rest beep i st w = (inr (b, st'), w') ->
  b = false /\
  exists st1, skipped_rests st1 = skipped_rests st /\
              st' = minutes_boundary s rest beep i st1.
Proof.
  intros Hi H. unfold minutes_iteration in H.
  apply bind_inr in H as (st1 & w1 & H1 & H2).
  assert (Hk : skipped_rests st1 = skipped_rests st).
  { destruct (should_speak_minute i s).
    - apply bind_inr in H1 as (spoken & w0 & _ & Hr).
      apply ret_inr in Hr as [<- _]. reflexivity.
    - apply ret_inr in H1 as [<- _]. reflexivity. }
  destruct (Z.eqb_spec i 1) as [|_]; [contradiction|].
  apply ret_inr in H2 as [H2 _]. inversion H2; subst.
  split; [reflexivity|]. exists st1. split; [exact Hk|reflexivity].
Qed.


(** *** The speech cache *)

Lemma tts_cached_hit text cache tmp lang tld retries delay w b seg :
  fs w !! cache_path cache text lang tld = Some b ->
  decode_mp3 b = Some seg ->
  tts_cached text cache tmp lang tld retries delay w = (inr seg, w).
Proof.
  intros Hb Hd.
  unfold tts_cached, bind, exists_file, from_mp3, bind, read_file.
  rewrite Hb. cbn. rewrite Hb, Hd. reflexivity.
Qed.

Lemma tts_cached_stored text cache tmp lang tld retries delay w seg w1 :
  tts_cached text cache tmp lang tld retries delay w = (inr seg, w1) ->
  exists b, fs w1 !! cache_path cache text lang tld = Some b /\
            decode_mp3 b = Some seg.
Proof.
  unfold tts_cached. intros H.
  apply bind_inr in H as (present & w0 & _ & H).
  apply bind_inr in H as (u & w2 & _ & H).
  unfold from_mp3 in H. apply bind_inr in H as (b & w3 & Hr & H).
  unfold read_file in Hr.
  destruct (fs w2 !! _) as [b'|] eqn:E; [|discriminate].
  inversion Hr; subst. exists b.
  destruct (decode_mp3 b) as [seg'|]; [|discriminate].
  apply ret_inr in H as [-> ->]. split; [exact E|reflexivity].
Qed.

(** *** The retry loop *)

Lemma count_requests_app l1 l2 :
  count_requests (l1 ++ l2) = (count_requests l1 + count_requests l2)%nat.
Proof. unfold count_requests. rewrite List.filter_app, List.length_app. reflexivity. Qed.

Lemma requests_extend w w' evs :
  log w' = log w ++ evs ->
  requests w' = (requests w + count_requests evs)%nat.
Proof. unfold requests. intros ->. apply count_requests_app. Qed.

Lemma sleeps_app l1 l2 : sleeps (l1 ++ l2) = sleeps l1 ++ sleeps l2.
Proof. unfold sleeps. apply omap_app. Qed.

(** One attempt issues exactly one request, does not sleep, and succeeds
    exactly as [attempt_at] says. *)
Lemma attempt_run text out lang tld w r w1 :
  bind (tts_to_file text out lang tld) (fun _ => from_mp3 out) w = (r, w1) ->
  exists evs, log w1 = log w ++ evs /\ count_requests evs = 1%nat /\
              sleeps evs = [] /\ Forall assembly_event evs /\
              match r with
              | inr seg => attempt_at text out lang tld (requests w) = Some seg
              | inl _ => attempt_at text out lang tld (requests w) = None
              end.
Proof.
  unfold bind, tts_to_file, attempt_at, write_file, from_mp3, bind, read_file.
  destruct (gtts (requests w) text lang tld) as [b|].
  - destruct (can_write out).
    + cbn. rewrite lookup_insert_eq.
      destruct (decode_mp3 b) as [seg|]; cbn; intros H; inversion H; subst;
        (eexists; split; [cbn; rewrite <- app_assoc; reflexivity|]);
        repeat split; repeat constructor.
    + intros H; inversion H; subst.
      eexists; split; [reflexivity|]. repeat split; repeat constructor.
  - intros H; inversion H; subst.
    eexists; split; [reflexivity|]. repeat split; repeat constructor.
Qed.

Lemma sleep_run secs w r w1 :
  (0 <= secs)%Q -> sleep secs w = (r, w1) ->
  r = inr tt /\ log w1 = log w ++ [EvSleep secs].
Proof.
  intros Hs. unfold sleep. apply Qle_bool_iff in Hs. rewrite Hs.
  unfold emit. intros H. inversion H; subst. split; reflexivity.
Qed.

Lemma retry_loop_S text out lang tld retries delay n attempt last :
  retry_loop text out lang tld retries delay (S n) attempt last =
  try_except
    (bind (tts_to_file text out lang tld) (fun _ => from_mp3 out))
    (fun e =>
       bind (if attempt <? retries - 1
             then sleep (delay * inject_Z (attempt + 1))
             else ret tt)
         (fun _ => retry_loop text out lang tld retries delay n (attempt + 1)
                     (Some e))).
Proof. reflexivity. Qed.

Lemma backoff_cons delay j0 m :
  backoff delay j0 (S m) =
  (delay * inject_Z (Z.of_nat j0 + 1))%Q :: backoff delay (S j0) m.
Proof. reflexivity. Qed.

(** What a run of the loop does, for the [n] attempts that remain after
    [j0] failed ones. *)
Lemma retry_loop_spec text out lang tld retries delay :
  (0 <= delay)%Q ->
  forall n j0 last w r w',
    Z.of_nat (j0 + n) = retries ->
    retry_loop text out lang tld retries delay n (Z.of_nat j0) last w = (r, w') ->
    exists evs, log w' = log w ++ evs /\ Forall assembly_event evs /\
      match r with
      | inr seg =>
          exists k, (k < n)%nat /\ count_requests evs = S k /\
            attempt_at text out lang tld (requests w + k) = Some seg /\
            (forall i, (i < k)%nat ->
               attempt_at text out lang tld (requests w + i) = None) /\
            sleeps evs = backoff delay j0 k
      | inl e =>
          count_requests evs = n /\
          (forall i, (i < n)%nat ->
             attempt_at text out lang tld (requests w + i) = None) /\
          sleeps evs = backoff delay j0 (Nat.pred n) /\
          exists last', e = RuntimeError text last'
      end.
Proof.
  intros Hd. induction n as [|n' IH]; intros j0 last w r w' Hn H.
  - cbn in H. inversion H; subst. exists []. rewrite app_nil_r.
    split; [reflexivity|]. split; [constructor|].
    split; [reflexivity|]. split; [intros i Hi; lia|].
    split; [reflexivity|]. eexists; reflexivity.
  - rewrite retry_loop_S in H. unfold try_except in H.
    destruct (bind _ _ w) as [[e|seg] w1] eqn:E;
      apply attempt_run in E as (evs1 & L1 & C1 & S1 & A1 & O1).
    + assert (R1 : requests w1 = S (requests w)).
      { rewrite (requests_extend _ _ _ L1), C1. lia. }
      replace (Z.of_nat j0 + 1) with (Z.of_nat (S j0)) in H by lia.
      destruct (Z.ltb_spec (Z.of_nat j0) (retries - 1)) as [Hlt|Hge].
      * unfold bind at 1 in H.
        destruct (sleep _ w1) as [rs w2] eqn:Es.
        apply sleep_run in Es as [-> L2].
        2:{ apply Qmult_le_0_compat; [exact Hd|].
            change 0%Q with (inject_Z 0). rewrite <- Zle_Qle. lia. }
        apply IH in H as (evs & L & A & Hr); [|lia].
        assert (R2 : requests w2 = S (requests w)).
        { rewrite (requests_extend _ _ _ L2), R1. cbn. lia. }
        exists (evs1 ++ [EvSleep (delay * inject_Z (Z.of_nat (S j0)))] ++ evs).
        split; [rewrite L, L2, L1, <- !app_assoc; reflexivity|].
        split; [rewrite !Forall_app; repeat split; [exact A1|repeat constructor|exact A]|].
        destruct r as [e'|seg].
        -- destruct Hr as (Hc & Hall & Hs & Hl).
           rewrite !count_requests_app, !sleeps_app, C1, S1, Hc, Hs.
           cbn -[backoff]. split; [reflexivity|]. split.
           { intros [|i] Hi; [rewrite Nat.add_0_r; exact O1|].
             replace (requests w + S i)%nat with (requests w2 + i)%nat by lia.
             apply Hall. lia. }
           split; [|exact Hl].
           destruct n' as [|n'']; [lia|]. cbn [Nat.pred].
           rewrite backoff_cons. f_equal. f_equal. f_equal. lia.
        -- destruct Hr as (k & Hk & Hc & Hok & Hall & Hs).
           exists (S k). rewrite !count_requests_app, !sleeps_app, C1, S1, Hc, Hs.
           cbn -[backoff]. split; [lia|]. split; [reflexivity|]. split.
           { replace (requests w + S k)%nat with (requests w2 + k)%nat by lia.
             exact Hok. }
           split.
           { intros [|i] Hi; [rewrite Nat.add_0_r; exact O1|].
             replace (requests w + S i)%nat with (requests w2 + i)%nat by lia.
             apply Hall. lia. }
           rewrite backoff_cons. f_equal. f_equal. f_equal. lia.
      * assert (n' = 0)%nat as -> by lia.
        cbn in H. inversion H; subst.
        exists evs1. split; [exact L1|]. split; [exact A1|].
        split; [exact C1|]. split.
        { intros i Hi. assert (i = 0)%nat as -> by lia.
          rewrite Nat.add_0_r. exact O1. }
        split; [exact S1|]. eexists; reflexivity.
    + inversion H; subst. exists evs1. split; [exact L1|]. split; [exact A1|].
      exists 0%nat. split; [lia|]. split; [exact C1|].
      split; [rewrite Nat.add_0_r; exact O1|].
      split; [intros i Hi; lia|exact S1].
Qed.

Lemma backoff_length delay j0 m : length (backoff delay j0 m) = m.
Proof. unfold backoff. rewrite List.length_map, List.length_seq. reflexivity. Qed.

Lemma backoff_sorted delay :
  (0 < delay)%Q -> forall m j0, StronglySorted Qlt (backoff delay j0 m).
Proof.
  intros Hd. induction m as [|m IH]; intros j0.
  - constructor.
  - rewrite backoff_cons. constructor; [apply IH|].
    apply List.Forall_forall. intros x Hx. unfold backoff in Hx.
    apply List.in_map_iff in Hx as (j & <- & Hj).
    apply List.in_seq in Hj.
    apply Qmult_lt_l; [exact Hd|]. rewrite <- Zlt_Qlt. lia.
Qed.

(** C6. Speech synthesis makes at most [retries] attempts; it sleeps once
    between two consecutive attempts, for [delay * 1], [delay * 2], ...
    seconds, a strictly increasing sequence; it returns the result of the
    first attempt that succeeds, and it raises, a [RuntimeError], exactly
    when every attempt fails.  [delay] is positive (all callers use the
    default 1.2). *)
Theorem tts_retry_attempts text tmp lang tld retries delay w r w' :
  (0 < delay)%Q ->
  tts_with_retry_to_audiosegment text tmp lang tld retries delay w = (r, w') ->
  let attempt i :=
    attempt_at text (path_join tmp "tts_tmp.mp3") lang tld (requests w + i) in
  exists evs,
    log w' = log w ++ evs /\
    (count_requests evs <= Z.to_nat retries)%nat /\
    length (sleeps evs) = Nat.pred (count_requests evs) /\
    sleeps evs = backoff delay 0 (length (sleeps evs)) /\
    StronglySorted Qlt (sleeps evs) /\
    (forall seg,
       r = inr seg <->
       exists k, (k < Z.to_nat retries)%nat /\ attempt k = Some seg /\
                 forall i, (i < k)%nat -> attempt i = None) /\
    ((exists e, r = inl e) <->
     forall i, (i < Z.to_nat retries)%nat -> attempt i = None) /\
    (forall e, r = inl e -> exists last, e = RuntimeError text last).
Proof.
  intros Hd H attempt. unfold tts_with_retry_to_audiosegment in H.
  assert (Hd0 : (0 <= delay)%Q) by (apply Qlt_le_weak; exact Hd).
  destruct (Z.le_gt_cases retries 0) as [Hneg|Hpos].
  - assert (Hn : Z.to_nat retries = 0%nat) by lia. rewrite Hn in *.
    cbn in H. inversion H; subst. exists []. rewrite app_nil_r.
    split; [reflexivity|]. split; [cbn; lia|]. split; [reflexivity|].
    split; [reflexivity|]. split; [constructor|]. split; [|split].
    + intros seg. split; [discriminate|]. intros (k & Hk & _). lia.
    + split; [intros _ i Hi; lia|]. intros _. eexists; reflexivity.
    + intros e He. inversion He; subst. eexists; reflexivity.
  - change 0 with (Z.of_nat 0) in H at 1.
    apply retry_loop_spec in H as (evs & L & _ & Hr); [|exact Hd0|lia].
    exists evs. split; [exact L|]. destruct r as [e|seg].
    + destruct Hr as (Hc & Hall & Hs & Hl).
      rewrite Hs, backoff_length, Hc.
      split; [lia|]. split; [reflexivity|]. split; [reflexivity|].
      split; [apply backoff_sorted; exact Hd|]. split; [|split].
      * intros seg. split; [discriminate|].
        intros (k & Hk & Hok & _). unfold attempt in Hok.
        rewrite Hall in Hok by exact Hk. discriminate.
      * split; [intros _; exact Hall|]. intros _. eexists; reflexivity.
      * intros e0 He. inversion He; subst. exact Hl.
    + destruct Hr as (k & Hk & Hc & Hok & Hall & Hs).
      rewrite Hs, backoff_length, Hc.
      split; [lia|]. split; [reflexivity|]. split; [reflexivity|].
      split; [apply backoff_sorted; exact Hd|]. split; [|split].
      * intros seg'. split.
        -- intros Heq. inversion Heq; subst. exists k. auto.
        -- intros (k' & Hk' & Hok' & Hall'). unfold attempt in *.
           destruct (Nat.lt_trichotomy k k') as [Hlt|[->|Hlt]].
           ++ rewrite Hall' in Hok by exact Hlt. discriminate.
           ++ congruence.
           ++ rewrite Hall in Hok' by exact Hlt. discriminate.
      * split; [intros [e He]; discriminate|].
        intros Hnone. unfold attempt in Hnone.
        rewrite Hnone in Hok by exact Hk. discriminate.
      * intros e He. discriminate.
Qed.

(** *** The timeline invariant *)

Lemma contiguous_from_snoc a tl e :
  contiguous_from a (tl ++ [e]) <->
  contiguous_from a tl /\ e_start e = end_from a tl.
Proof.
  clear md5_hexdigest gtts can_write td json_dump.
  revert a. induction tl as [|x tl IH]; intros a; cbn.
  - tauto.
  - rewrite IH. tauto.
Qed.

Lemma end_from_snoc a tl e : end_from a (tl ++ [e]) = e_end e.
Proof. revert a. induction tl as [|x tl IH]; intros a; cbn; auto. Qed.

Lemma contiguous_from_lookup a (tl : list TimelineEntry) i e1 e2 :
  contiguous_from a tl ->
  tl !! i = Some e1 -> tl !! S i = Some e2 -> e_start e2 = e_end e1.
Proof.
  revert a i. induction tl as [|x tl IH]; intros a i Hc H1 H2; [discriminate|].
  destruct Hc as [_ Hc]. destruct i as [|i]; cbn in H1, H2.
  - inversion H1; subst. destruct tl as [|y tl]; [discriminate|].
    inversion H2; subst. destruct Hc as [Hy _]. exact Hy.
  - eapply IH; eauto.
Qed.

Lemma end_from_last a (tl : list TimelineEntry) e :
  last tl = Some e -> end_from a tl = e_end e.
Proof.
  revert a. induction tl as [|x tl IH]; intros a H; [discriminate|].
  destruct tl as [|y tl].
  - cbn in H. inversion H; subst. reflexivity.
  - change (last (x :: y :: tl)) with (last (y :: tl)) in H.
    cbn [end_from]. apply (IH (e_end x)). exact H.
Qed.

Lemma concat_onto_snoc base segs seg :
  concat_onto base (segs ++ [seg]) = seg_add (concat_onto base segs) seg.
Proof. unfold concat_onto. rewrite fold_left_app. reflexivity. Qed.

Lemma well_timed_append st segs lbl seg dur :
  well_timed st segs ->
  records (mkEntry lbl (t_ms st) (t_ms st + dur)) seg ->
  well_timed (append_cue lbl seg dur st) (segs ++ [seg]).
Proof.
  intros (Hc & Hs & Hk & He) Hr. unfold well_timed, append_cue; cbn.
  split; [rewrite concat_onto_snoc, Hc; reflexivity|].
  split; [apply Forall2_app; [exact Hs|constructor; [exact Hr|constructor]]|].
  split; [apply contiguous_from_snoc; split; [exact Hk|cbn; congruence]|].
  apply end_from_snoc.
Qed.

Lemma timed_initial : timed initial_state.
Proof.
  exists []. unfold well_timed, initial_state; cbn.
  repeat split; constructor.
Qed.

Lemma timed_speech st lbl seg :
  timed st -> timed (append_cue lbl seg (seg_len seg) st).
Proof.
  intros [segs H]. exists (segs ++ [seg]). apply well_timed_append; [exact H|].
  left. reflexivity.
Qed.

Lemma timed_silence st lbl gap :
  lbl ∈ gap_labels ->
  timed st -> timed (append_cue lbl (silent gap 11025) gap st).
Proof.
  intros Hl [segs H]. exists (segs ++ [silent gap 11025]).
  apply well_timed_append; [exact H|].
  right. exists gap. split; [reflexivity|]. split; [reflexivity|exact Hl].
Qed.

Lemma timed_count_skipped st : timed st -> timed (count_skipped_rest st).
Proof. intros [segs H]. exists segs. exact H. Qed.

Lemma with_tempdir_run {A} files (body : string -> M A) w r w' :
  with_tempdir td files body w = (r, w') ->
  exists w1, body td w = (r, w1) /\ log w' = log w1.
Proof.
  unfold with_tempdir. destruct (body td w) as [r1 w1].
  intros H. inversion H; subst. exists w1. split; reflexivity.
Qed.

Lemma for_range_down_preserves (P : BuildState -> Prop) body :
  (forall i st w b st' w',
     body i st w = (inr (b, st'), w') -> P st -> P st') ->
  forall n st w st' w',
    for_range_down n body st w = (inr st', w') -> P st -> P st'.
Proof.
  intros Hbody. induction n as [|n IH]; intros st w st' w' H HP.
  - apply ret_inr in H as [<- _]. exact HP.
  - cbn [for_range_down] in H.
    apply bind_inr in H as ([b st1] & w1 & Hb & H). cbn [fst snd] in H.
    apply Hbody in Hb; [|exact HP]. destruct b.
    + apply ret_inr in H as [<- _]. exact Hb.
    + eapply IH; eauto.
Qed.

Local Ltac gap_label := unfold gap_labels; repeat constructor.

Lemma lead_in_block_timed s cache tmp st w st' w' :
  lead_in_block s cache tmp st w = (inr st', w') -> timed st -> timed st'.
Proof.
  unfold lead_in_block. destruct (truthy_str (lead_in s)) as [txt|]; intros H Ht.
  - apply bind_inr in H as (lead & w1 & _ & H). apply ret_inr in H as [<- _].
    destruct (0 <? lead_in_gap_ms s).
    + apply timed_silence; [gap_label|apply timed_speech; exact Ht].
    + apply timed_speech; exact Ht.
  - apply ret_inr in H as [<- _]. exact Ht.
Qed.

Lemma end_block_timed s cache tmp st w st' w' :
  end_block s cache tmp st w = (inr st', w') -> timed st -> timed st'.
Proof.
  unfold end_block. destruct (truthy_str (end_with s)) as [txt|]; intros H Ht.
  - apply bind_inr in H as (seg & w1 & _ & H). apply ret_inr in H as [<- _].
    apply timed_speech; exact Ht.
  - apply ret_inr in H as [<- _]. exact Ht.
Qed.

Lemma countdown_boundary_timed s rest beep i st :
  timed st -> timed (countdown_boundary s rest beep i st).
Proof.
  intros Ht. unfold countdown_boundary.
  destruct (is_rest_boundary s i);
    [destruct (skipped_rests st <? skip_first_rest s)|];
    repeat first
      [ apply timed_silence; [gap_label|]
      | apply timed_speech
      | apply timed_count_skipped ];
    exact Ht.
Qed.

Lemma minutes_boundary_timed s rest beep i st :
  timed st -> timed (minutes_boundary s rest beep i st).
Proof.
  intros Ht. unfold minutes_boundary.
  destruct (is_rest_boundary s i);
    [destruct (skipped_rests st <? skip_first_rest s)|].
  - apply timed_silence; [gap_label|].
    apply timed_speech, timed_count_skipped, Ht.
  - apply timed_silence; [gap_label|].
    apply timed_speech.
    destruct rest as [r|]; [destruct (seg_len r =? 0)|];
      [exact Ht|apply timed_speech; exact Ht|exact Ht].
  - apply timed_silence; [gap_label|].
    apply timed_speech, Ht.
Qed.

Lemma countdown_iteration_timed s cache tmp rest beep i st w b st' w' :
  countdown_iteration s cache tmp rest beep i st w = (inr (b, st'), w') ->
  timed st -> timed st'.
Proof.
  unfold countdown_iteration. intros H Ht.
  apply bind_inr in H as (spoken & w1 & _ & H).
  destruct (i =? 1).
  - apply bind_inr in H as (st1 & w2 & He & H).
    apply ret_inr in H as [H _]. inversion H; subst.
    eapply end_block_timed; [exact He|]. apply timed_speech, Ht.
  - apply ret_inr in H as [H _]. inversion H; subst.
    apply countdown_boundary_timed, timed_speech, Ht.
Qed.

Lemma minutes_iteration_timed s cache tmp rest beep i st w b st' w' :
  minutes_iteration s cache tmp rest beep i st w = (inr (b, st'), w') ->
  timed st -> timed st'.
Proof.
  unfold minutes_iteration. intros H Ht.
  apply bind_inr in H as (st0 & w0 & Hs & H).
  assert (Ht0 : timed st0).
  { destruct (should_speak_minute i s).
    - apply bind_inr in Hs as (spoken & w1 & _ & Hs).
      apply ret_inr in Hs as [<- _]. apply timed_speech, Ht.
    - apply ret_inr in Hs as [<- _]. exact Ht. }
  destruct (i =? 1).
  - apply bind_inr in H as (st1 & w2 & He & H).
    apply ret_inr in H as [H _]. inversion H; subst.
    eapply end_block_timed; [exact He|exact Ht0].
  - apply ret_inr in H as [H _]. inversion H; subst.
    apply minutes_boundary_timed, Ht0.
Qed.

Lemma build_countdown_audio_timed s cache w audio tl w' :
  build_countdown_audio s cache w = (inr (audio, tl), w') ->
  exists st, timed st /\ audio = combined st /\ tl = timeline st.
Proof.
  unfold build_countdown_audio. intros H.
  apply with_tempdir_run in H as (w1 & H & _).
  apply bind_inr in H as (rest & w2 & _ & H).
  apply bind_inr in H as (st0 & w3 & Hl & H).
  apply bind_inr in H as (st1 & w4 & Hf & H).
  apply ret_inr in H as [H _]. inversion H; subst.
  exists st1. split; [|split; reflexivity].
  eapply for_range_down_preserves; [|exact Hf|].
  - intros i st w5 b st' w6. apply countdown_iteration_timed.
  - eapply lead_in_block_timed; [exact Hl|apply timed_initial].
Qed.

Lemma build_minutes_countdown_timed s cache w audio tl w' :
  build_minutes_countdown s cache w = (inr (audio, tl), w') ->
  exists st, timed st /\ audio = combined st /\ tl = timeline st.
Proof.
  unfold build_minutes_countdown. intros H.
  apply with_tempdir_run in H as (w1 & H & _).
  apply bind_inr in H as (rest & w2 & _ & H).
  apply bind_inr in H as (st0 & w3 & Hl & H).
  apply bind_inr in H as (st1 & w4 & Hf & H).
  apply ret_inr in H as [H _]. inversion H; subst.
  exists st1. split; [|split; reflexivity].
  eapply for_range_down_preserves; [|exact Hf|].
  - intros i st w5 b st' w6. apply minutes_iteration_timed.
  - eapply lead_in_block_timed; [exact Hl|apply timed_initial].
Qed.

(** X13. For every configuration, the timeline either assembler returns
    is contiguous and exhaustive: its first entry starts at 0, every
    entry starts where the previous one ends, and the track is the
    concatenation of one segment per entry, in order, where the entry of
    a sound spans [len(segment)] and the entry of a silence spans the
    number of milliseconds the silence was asked for.  Nothing is said
    of the duration of the track. *)
Theorem timeline_contiguous_exhaustive s cache w audio tl w' :
  build_countdown_audio s cache w = (inr (audio, tl), w') \/
  build_minutes_countdown s cache w = (inr (audio, tl), w') ->
  (forall e, head tl = Some e -> e_start e = 0) /\
  (forall i e1 e2,
     tl !! i = Some e1 -> tl !! S i = Some e2 -> e_start e2 = e_end e1) /\
  (exists segs,
     audio = concat_onto (silent 0 TARGET_RATE) segs /\
     Forall2 records tl segs).
Proof.
  intros H.
  assert (Hst : exists st, timed st /\ audio = combined st /\ tl = timeline st).
  { destruct H as [H|H].
    - eapply build_countdown_audio_timed; exact H.
    - eapply build_minutes_countdown_timed; exact H. }
  destruct Hst as (st & (segs & Hc & Hs & Hk & He) & -> & ->).
  split; [|split].
  - intros e Hh. destruct (timeline st) as [|x tl']; [discriminate|].
    inversion Hh; subst. destruct Hk as [Hk _]. exact Hk.
  - intros i e1 e2. apply (contiguous_from_lookup 0); exact Hk.
  - exists segs. split; assumption.
Qed.

(** *** What the assemblers write *)

Lemma log_extends_refl P w : log_extends P w w.
Proof. exists []. rewrite app_nil_r. split; [reflexivity|constructor]. Qed.

Lemma log_extends_trans P w1 w2 w3 :
  log_extends P w1 w2 -> log_extends P w2 w3 -> log_extends P w1 w3.
Proof.
  intros (e1 & L1 & F1) (e2 & L2 & F2). exists (e1 ++ e2).
  split; [rewrite L2, L1, app_assoc; reflexivity|].
  apply Forall_app; split; assumption.
Qed.

Lemma emits_ret {A} P (a : A) : emits P (ret a).
Proof. intros w r w' H. inversion H; subst. apply log_extends_refl. Qed.

Lemma emits_raise {A} P e : emits P (raise (A:=A) e).
Proof. intros w r w' H. inversion H; subst. apply log_extends_refl. Qed.

Lemma emits_bind {A B} P (m : M A) (f : A -> M B) :
  emits P m -> (forall a, emits P (f a)) -> emits P (bind m f).
Proof.
  intros Hm Hf w r w' H. unfold bind in H.
  destruct (m w) as [[e|a] w1] eqn:E.
  - inversion H; subst. eapply Hm; eauto.
  - eapply log_extends_trans; [eapply Hm; eauto|eapply Hf; eauto].
Qed.

Lemma emits_try_except {A} P (m : M A) h :
  emits P m -> (forall e, emits P (h e)) -> emits P (try_except m h).
Proof.
  intros Hm Hh w r w' H. unfold try_except in H.
  destruct (m w) as [[e|a] w1] eqn:E.
  - eapply log_extends_trans; [eapply Hm; eauto|eapply Hh; eauto].
  - inversion H; subst. eapply Hm; eauto.
Qed.

Lemma emits_emit P e : P e -> emits P (emit e).
Proof.
  intros He w r w' H. inversion H; subst. exists [e].
  split; [reflexivity|repeat constructor; exact He].
Qed.

Lemma emits_write_file P site path b :
  P (EvWrite site path) -> emits P (write_file site path b).
Proof.
  intros He w r w' H. unfold write_file in H. destruct (can_write path).
  - inversion H; subst. exists [EvWrite site path].
    split; [reflexivity|repeat constructor; exact He].
  - inversion H; subst. apply log_extends_refl.
Qed.

Lemma emits_read_file P path : emits P (read_file path).
Proof.
  intros w r w' H. unfold read_file in H.
  destruct (fs w !! path); inversion H; subst; apply log_extends_refl.
Qed.

Lemma emits_from_mp3 P path : emits P (from_mp3 path).
Proof.
  apply emits_bind; [apply emits_read_file|]. intros b.
  destruct (decode_mp3 b); [apply emits_ret|apply emits_raise].
Qed.

Lemma emits_from_wav P path : emits P (from_wav path).
Proof.
  apply emits_bind; [apply emits_read_file|]. intros b.
  destruct (decode_wav b); [apply emits_ret|apply emits_raise].
Qed.

Lemma emits_with_tempdir {A} P files (body : string -> M A) :
  emits P (body td) -> emits P (with_tempdir td files body).
Proof.
  intros Hb w r w' H. apply with_tempdir_run in H as (w1 & H & L).
  apply Hb in H as (evs & L1 & F). exists evs. rewrite L. auto.
Qed.

Lemma emits_tts_to_file text path lang tld :
  emits assembly_event (tts_to_file text path lang tld).
Proof.
  intros w r w' H. unfold tts_to_file, write_file in H.
  destruct (gtts _ _ _ _) as [b|]; [destruct (can_write path)|];
    inversion H; subst; cbn; eexists;
    (split; [try rewrite <- app_assoc; reflexivity|repeat constructor]).
Qed.

Lemma emits_sleep secs : emits assembly_event (sleep secs).
Proof.
  unfold sleep. destruct (Qle_bool 0 secs);
    [apply emits_emit; exact I|apply emits_raise].
Qed.

Lemma emits_retry_loop text out lang tld retries delay n :
  forall attempt last,
    emits assembly_event
      (retry_loop text out lang tld retries delay n attempt last).
Proof.
  induction n as [|n IH]; intros attempt last.
  - apply emits_raise.
  - rewrite retry_loop_S. apply emits_try_except.
    + apply emits_bind; [apply emits_tts_to_file|].
      intros _. apply emits_from_mp3.
    + intros e. apply emits_bind; [|intros _; apply IH].
      destruct (attempt <? retries - 1); [apply emits_sleep|apply emits_ret].
Qed.

Lemma emits_tts_cached text cache tmp lang tld retries delay :
  emits assembly_event (tts_cached text cache tmp lang tld retries delay).
Proof.
  unfold tts_cached. apply emits_bind.
  - intros w r w' H. inversion H; subst. apply log_extends_refl.
  - intros present. apply emits_bind; [|intros _; apply emits_from_mp3].
    destruct present; [apply emits_ret|].
    apply emits_bind; [apply emits_retry_loop|].
    intros seg. apply emits_write_file. exact I.
Qed.

Lemma emits_speech s cache tmp text :
  emits assembly_event (speech s cache tmp text).
Proof.
  apply emits_bind; [apply emits_tts_cached|]. intros raw. apply emits_ret.
Qed.

Lemma emits_lead_in_block s cache tmp st :
  emits assembly_event (lead_in_block s cache tmp st).
Proof.
  unfold lead_in_block. destruct (truthy_str _); [|apply emits_ret].
  apply emits_bind; [apply emits_speech|]. intros lead. apply emits_ret.
Qed.

Lemma emits_end_block s cache tmp st :
  emits assembly_event (end_block s cache tmp st).
Proof.
  unfold end_block. destruct (truthy_str _); [|apply emits_ret].
  apply emits_bind; [apply emits_speech|]. intros seg. apply emits_ret.
Qed.

Lemma emits_for_range_down P body :
  (forall i st, emits P (body i st)) ->
  forall n st, emits P (for_range_down n body st).
Proof.
  intros Hb. induction n as [|n IH]; intros st.
  - apply emits_ret.
  - cbn [for_range_down]. apply emits_bind; [apply Hb|].
    intros [b st1]. cbn [fst snd]. destruct b; [apply emits_ret|apply IH].
Qed.

Lemma emits_countdown_iteration s cache tmp rest beep i st :
  emits assembly_event (countdown_iteration s cache tmp rest beep i st).
Proof.
  unfold countdown_iteration. apply emits_bind; [apply emits_speech|].
  intros spoken. destruct (i =? 1); [|apply emits_ret].
  apply emits_bind; [apply emits_end_block|]. intros st1. apply emits_ret.
Qed.

Lemma emits_minutes_iteration s cache tmp rest beep i st :
  emits assembly_event (minutes_iteration s cache tmp rest beep i st).
Proof.
  unfold minutes_iteration. apply emits_bind.
  - destruct (should_speak_minute i s); [|apply emits_ret].
    apply emits_bind; [apply emits_speech|]. intros spoken. apply emits_ret.
  - intros st1. destruct (i =? 1); [|apply emits_ret].
    apply emits_bind; [apply emits_end_block|]. intros st2. apply emits_ret.
Qed.

Lemma emits_build_countdown_audio s cache :
  emits assembly_event (build_countdown_audio s cache).
Proof.
  unfold build_countdown_audio. apply emits_with_tempdir.
  apply emits_bind; [apply emits_speech|]. intros rest.
  apply emits_bind; [apply emits_lead_in_block|]. intros st.
  apply emits_bind; [|intros st1; apply emits_ret].
  apply emits_for_range_down. intros i st0. apply emits_countdown_iteration.
Qed.

Lemma emits_build_minutes_countdown s cache :
  emits assembly_event (build_minutes_countdown s cache).
Proof.
  unfold build_minutes_countdown. apply emits_with_tempdir.
  apply emits_bind.
  - destruct (0 <? every_n s); [|apply emits_ret].
    apply emits_bind; [apply emits_speech|]. intros r. apply emits_ret.
  - intros rest. apply emits_bind; [apply emits_lead_in_block|]. intros st.
    apply emits_bind; [|intros st1; apply emits_ret].
    apply emits_for_range_down. intros i st0. apply emits_minutes_iteration.
Qed.

(** *** The command line *)

Lemma string_of_list_ascii_app l1 l2 :
  string_of_list_ascii (l1 ++ l2) =
  string_of_list_ascii l1 +:+ string_of_list_ascii l2.
Proof. induction l1 as [|c l1 IH]; cbn; [reflexivity|rewrite IH; reflexivity]. Qed.

(** [with_suffix] keeps the path up to the suffix of its name and puts
    the new suffix in its place. *)
Lemma with_suffix_stem p suffix q :
  with_suffix p suffix = Some q ->
  exists stem ext,
    p = stem +:+ ext /\ q = stem +:+ suffix /\
    (String.length ext <= suffix_length (path_name p))%nat.
Proof.
  unfold with_suffix. destruct (path_name p) as [|c name] eqn:E; [discriminate|].
  intros H. inversion H; subst.
  set (chars := list_ascii_of_string p).
  set (k := (length chars - suffix_length (c :: name))%nat).
  exists (string_of_list_ascii (take k chars)),
         (string_of_list_ascii (drop k chars)).
  split; [|split; [reflexivity|]].
  - rewrite <- string_of_list_ascii_app, take_drop.
    symmetry. apply string_of_list_ascii_of_string.
  - rewrite <- (list_ascii_of_string_of_list_ascii (drop k chars)) at 1.
    assert (Hlen : forall t, String.length t = length (list_ascii_of_string t)).
    { induction t as [|a t IH]; cbn; [reflexivity|rewrite IH; reflexivity]. }
    rewrite string_of_list_ascii_of_string, Hlen,
      list_ascii_of_string_of_list_ascii, length_drop.
    unfold k. lia.
Qed.

(** The export block of [main]: the temporary WAV, then the MP3. *)
Lemma export_block_run s audio w1 res w2 :
  with_tempdir td ["combined.wav"] (fun tmp =>
    let tmp_wav := path_join tmp "combined.wav" in
    bind (write_file TmpWav tmp_wav (encode_wav audio)) (fun _ =>
    bind (from_wav tmp_wav) (fun final =>
    write_file AudioOut (outfile s)
      (encode_mp3 (Some (out_bitrate s)) final)))) w1 = (res, w2) ->
  let wav := EvWrite TmpWav (path_join td "combined.wav") in
  ((exists e, res = inl e) /\
   (log w2 = log w1 \/ log w2 = log w1 ++ [wav])) \/
  (res = inr tt /\ log w2 = log w1 ++ [wav; EvWrite AudioOut (outfile s)]).
Proof.
  intros H. apply with_tempdir_run in H as (w3 & H & ->). cbn zeta in H.
  unfold bind at 1 in H. unfold write_file at 1 in H.
  destruct (can_write (path_join td "combined.wav")).
  2:{ inversion H; subst. left. split; [eexists; reflexivity|left; reflexivity]. }
  unfold bind at 1 in H.
  destruct (from_wav _ _) as [[e|final] w4] eqn:Ef;
    pose proof (emits_from_wav (fun _ => False) _ _ _ _ Ef) as (evs & L & F);
    destruct evs as [|x evs]; try (inversion F; contradiction);
    rewrite app_nil_r in L; cbn in L.
  - inversion H; subst. left. split; [eexists; reflexivity|right; exact L].
  - unfold write_file in H. destruct (can_write (outfile s)).
    + inversion H; subst. right. split; [reflexivity|]. cbn. rewrite L.
      rewrite <- app_assoc. reflexivity.
    + inversion H; subst. left. split; [eexists; reflexivity|right; exact L].
Qed.

(** C7. The run is all-or-nothing with respect to synthesis: when the
    assembler fails, [main] fails with the same error in the world the
    assembler left, in which no output file or sidecar was written; and in
    every run the new events are assembly events followed by the output
    writes, where the sidecar (the output path with its suffix replaced
    by [.json]) is written last, after the audio export, and only in a run
    that returns 0. *)
Theorem main_all_or_nothing s w r w' :
  main s w = (r, w') ->
  let build :=
    if decide (mode s = "minutes")
    then build_minutes_countdown s "tts_cache"
    else build_countdown_audio s "tts_cache" in
  let wav := EvWrite TmpWav (path_join td "combined.wav") in
  let out := EvWrite AudioOut (outfile s) in
  (forall e w1, build w = (inl e, w1) ->
     r = inl e /\ w' = w1 /\ log_extends assembly_event w w') /\
  exists evs tail,
    log w' = log w ++ evs ++ tail /\ Forall assembly_event evs /\
    (((exists e, r = inl e) /\
      (tail = [] \/ tail = [wav] \/ tail = [wav; out])) \/
     (r = inr 0 /\
      exists p stem ext,
        with_suffix (outfile s) ".json" = Some p /\
        outfile s = stem +:+ ext /\ p = stem +:+ ".json" /\
        (String.length ext <= suffix_length (path_name (outfile s)))%nat /\
        tail = [wav; out; EvWrite TimelineOut p])).
Proof.
  intros H build wav out. unfold main in H.
  unfold bind at 1 in H. unfold try_except, ret at 1 in H.
  fold build in H. unfold bind at 1 in H.
  assert (Hb : emits assembly_event build).
  { unfold build. destruct (decide _);
      [apply emits_build_minutes_countdown|apply emits_build_countdown_audio]. }
  destruct (build w) as [[e|[audio tl]] w1] eqn:Eb;
    apply Hb in Eb as Hlog; destruct (Hlog) as (evs & L & F).
  - inversion H; subst. split.
    + intros e0 w0 Heq. inversion Heq; subst. auto.
    + exists evs, []. rewrite app_nil_r. split; [exact L|]. split; [exact F|].
      left. split; [eexists; reflexivity|left; reflexivity].
  - split; [intros e0 w0 Heq; discriminate|].
    unfold bind at 1 in H.
    destruct (with_tempdir _ _ _ w1) as [res w2] eqn:Ew.
    apply export_block_run in Ew. cbn zeta in Ew.
    destruct Ew as [[[e ->] Hl]|[-> Hl]].
    + inversion H; subst. destruct Hl as [Hl|Hl].
      * exists evs, []. rewrite app_nil_r, Hl. split; [exact L|].
        split; [exact F|]. left. split; [eexists; reflexivity|auto].
      * exists evs, [wav]. rewrite Hl, L, <- app_assoc. split; [reflexivity|].
        split; [exact F|]. left. split; [eexists; reflexivity|auto].
    + destruct (with_suffix (outfile s) ".json") as [p|] eqn:Ep.
      * apply with_suffix_stem in Ep as Hstem.
        destruct Hstem as (stem & ext & Hp & Hq & Hlen).
        unfold bind, write_file in H. destruct (can_write p).
        -- injection H as <- <-. exists evs, [wav; out; EvWrite TimelineOut p].
           cbn [log]. rewrite Hl, L, <- !app_assoc. split; [reflexivity|].
           split; [exact F|]. right. split; [reflexivity|].
           exists p, stem, ext. auto.
        -- injection H as <- <-. exists evs, [wav; out]. rewrite Hl, L, <- app_assoc.
           split; [reflexivity|]. split; [exact F|].
           left. split; [eexists; reflexivity|auto].
      * inversion H; subst. exists evs, [wav; out]. rewrite Hl, L, <- app_assoc.
        split; [reflexivity|]. split; [exact F|].
        left. split; [eexists; reflexivity|auto].
Qed.

(** *** When the speech service answers *)

Lemma succeeds_ret {A} good (a : A) : succeeds good (ret a).
Proof. intros w Hw. exists a, w. split; [reflexivity|exact Hw]. Qed.

Lemma succeeds_bind {A B} good (m : M A) (f : A -> M B) :
  succeeds good m -> (forall a, succeeds good (f a)) -> succeeds good (bind m f).
Proof.
  intros Hm Hf w Hw. destruct (Hm w Hw) as (a & w1 & E & Hw1).
  destruct (Hf a w1 Hw1) as (b & w2 & E2 & Hw2).
  exists b, w2. split; [|exact Hw2]. rewrite (bind_run _ _ _ _ _ E). exact E2.
Qed.

Section ReliableService.

Variable cache : string.
Hypothesis service_answers :
  forall n text lang tld,
    exists b, gtts n text lang tld = Some b /\ is_Some (decode_mp3 b).
Hypothesis all_writable : forall p, can_write p = true.
Hypothesis reencodes : forall seg, is_Some (decode_mp3 (encode_mp3 None seg)).

#[local] Set Default Proof Using "Type service_answers all_writable reencodes".

Local Abbreviation good := (cache_decodes md5_hexdigest cache).

Lemma good_update w w' :
  good w ->
  (forall p b, fs w' !! p = Some b ->
     fs w !! p = Some b \/ is_Some (decode_mp3 b)) ->
  good w'.
Proof using Type.
  intros Hw Hupd text lang tld b H.
  destruct (Hupd _ _ H) as [H0|H0]; [eapply Hw; eauto|exact H0].
Qed.

Lemma speech_succeeds s tmp text : succeeds good (speech s cache tmp text).
Proof.
  intros w Hw. unfold speech.
  assert (Hc : exists raw w',
             tts_cached text cache tmp (lang s) (tld s) 3 1.2%Q w = (inr raw, w')
             /\ good w').
  { destruct (fs w !! cache_path cache text (lang s) (tld s)) as [b|] eqn:E.
    - destruct (Hw _ _ _ _ E) as [seg Hseg].
      exists seg, w. split; [|exact Hw]. eapply tts_cached_hit; eauto.
    - destruct (service_answers (requests w) text (lang s) (tld s))
        as (b0 & Hb0 & [seg0 Hseg0]).
      destruct (reencodes seg0) as [seg1 Hseg1].
      unfold tts_cached, bind at 1, exists_file. rewrite E. cbn [bool_decide].
      rewrite bool_decide_eq_false_2 by (intros [? ?]; discriminate).
      unfold tts_with_retry_to_audiosegment.
      change (Z.to_nat 3) with 3%nat. rewrite retry_loop_S.
      unfold try_except, bind, tts_to_file, write_file, from_mp3, bind, read_file.
      rewrite Hb0, !all_writable. cbn [fs log].
      rewrite lookup_insert_eq, Hseg0. cbn [fs log ret].
      rewrite lookup_insert_eq, Hseg1.
      eexists _, _. split; [reflexivity|].
      apply (good_update w); [exact Hw|]. cbn [fs]. intros p b H.
      destruct (decide (cache_path cache text (lang s) (tld s) = p)) as [<-|Hne].
      { rewrite lookup_insert_eq in H. inversion H; subst.
        right. eexists; exact Hseg1. }
      rewrite lookup_insert_ne in H by exact Hne.
      destruct (decide (path_join tmp "tts_tmp.mp3" = p)) as [<-|Hne'].
      { rewrite lookup_insert_eq in H. inversion H; subst.
        right. eexists; exact Hseg0. }
      rewrite lookup_insert_ne in H by exact Hne'. left. exact H. }
  destruct Hc as (raw & w' & E & Hw').
  exists (prep raw (fade_ms s)), w'. split; [|exact Hw'].
  rewrite (bind_run _ _ _ _ _ E). reflexivity.
Qed.

Lemma lead_in_block_succeeds s tmp st :
  succeeds good (lead_in_block s cache tmp st).
Proof.
  unfold lead_in_block. destruct (truthy_str _); [|apply succeeds_ret].
  apply succeeds_bind; [apply speech_succeeds|]. intros lead. apply succeeds_ret.
Qed.

Lemma end_block_succeeds s tmp st : succeeds good (end_block s cache tmp st).
Proof.
  unfold end_block. destruct (truthy_str _); [|apply succeeds_ret].
  apply succeeds_bind; [apply speech_succeeds|]. intros seg. apply succeeds_ret.
Qed.

Lemma for_range_down_succeeds body :
  (forall i st, succeeds good (body i st)) ->
  forall n st, succeeds good (for_range_down n body st).
Proof using Type.
  intros Hb. induction n as [|n IH]; intros st.
  - apply succeeds_ret.
  - cbn [for_range_down]. apply succeeds_bind; [apply Hb|].
    intros [b st1]. cbn [fst snd]. destruct b; [apply succeeds_ret|apply IH].
Qed.

Lemma countdown_iteration_succeeds s tmp rest beep i st :
  succeeds good (countdown_iteration s cache tmp rest beep i st).
Proof.
  unfold countdown_iteration. apply succeeds_bind; [apply speech_succeeds|].
  intros spoken. destruct (i =? 1); [|apply succeeds_ret].
  apply succeeds_bind; [apply end_block_succeeds|]. intros st1. apply succeeds_ret.
Qed.

Lemma minutes_iteration_succeeds s tmp rest beep i st :
  succeeds good (minutes_iteration s cache tmp rest beep i st).
Proof.
  unfold minutes_iteration. apply succeeds_bind.
  - destruct (should_speak_minute i s); [|apply succeeds_ret].
    apply succeeds_bind; [apply speech_succeeds|]. intros sp. apply succeeds_ret.
  - intros st1. destruct (i =? 1); [|apply succeeds_ret].
    apply succeeds_bind; [apply end_block_succeeds|]. intros st2. apply succeeds_ret.
Qed.

Lemma with_tempdir_succeeds {A} files (body : string -> M A) :
  succeeds good (body td) -> succeeds good (with_tempdir td files body).
Proof using Type.
  intros Hb w Hw. destruct (Hb w Hw) as (a & w1 & E & Hw1).
  unfold with_tempdir. rewrite E. eexists _, _. split; [reflexivity|].
  apply (good_update w1); [exact Hw1|]. cbn [fs]. intros p b H. left.
  revert H. generalize (fs w1). induction files as [|f l IH]; intros m Hp;
    cbn in Hp; [exact Hp|].
  apply lookup_delete_Some in Hp as [_ Hp]. apply IH. exact Hp.
Qed.

(** With a service that answers, both assemblers return a track. *)
Lemma build_countdown_audio_succeeds s :
  succeeds good (build_countdown_audio s cache).
Proof.
  unfold build_countdown_audio. apply with_tempdir_succeeds.
  apply succeeds_bind; [apply speech_succeeds|]. intros rest.
  apply succeeds_bind; [apply lead_in_block_succeeds|]. intros st.
  apply succeeds_bind; [|intros st1; apply succeeds_ret].
  apply for_range_down_succeeds. intros i st0. apply countdown_iteration_succeeds.
Qed.

Lemma build_minutes_countdown_succeeds s :
  succeeds good (build_minutes_countdown s cache).
Proof.
  unfold build_minutes_countdown. apply with_tempdir_succeeds.
  apply succeeds_bind.
  - destruct (0 <? every_n s); [|apply succeeds_ret].
    apply succeeds_bind; [apply speech_succeeds|]. intros r. apply succeeds_ret.
  - intros rest. apply succeeds_bind; [apply lead_in_block_succeeds|]. intros st.
    apply succeeds_bind; [|intros st1; apply succeeds_ret].
    apply for_range_down_succeeds. intros i st0. apply minutes_iteration_succeeds.
Qed.

End ReliableService.

#[local] Set Default Proof Using "Type".

(** *** Numbers mode on a fixed configuration *)

Lemma countdown_iteration_boundary s cache tmp rest beep i st w b st' w' :
  i <> 1 ->
  countdown_iteration s cache tmp rest beep i st w = (inr (b, st'), w') ->
  b = false /\
  exists spoken,
    st' = countdown_boundary s rest beep i
            (append_cue (pretty i) spoken (seg_len spoken) st).
Proof.
  intros Hi H. unfold countdown_iteration in H.
  apply bind_inr in H as (spoken & w1 & _ & H).
  destruct (Z.eqb_spec i 1) as [|_]; [contradiction|].
  apply ret_inr in H as [H _]. inversion H; subst.
  split; [reflexivity|]. exists spoken. reflexivity.
Qed.

Lemma countdown_iteration_last s cache tmp rest beep st w b st' w' :
  truthy_str (end_with s) = None ->
  countdown_iteration s cache tmp rest beep 1 st w = (inr (b, st'), w') ->
  b = true /\
  exists spoken, st' = append_cue "1" spoken (seg_len spoken) st.
Proof.
  intros He H. unfold countdown_iteration in H.
  apply bind_inr in H as (spoken & w1 & _ & H).
  change (1 =? 1) with true in H. cbv iota in H.
  unfold end_block in H. rewrite He in H.
  apply bind_inr in H as (st1 & w2 & Hr & H).
  apply ret_inr in Hr as [<- _]. apply ret_inr in H as [H _].
  inversion H; subst. split; [reflexivity|]. exists spoken. reflexivity.
Qed.

(** One turn of the loop at a count other than 1. *)
Ltac countdown_turn H :=
  let b := fresh "b" in
  let st := fresh "st" in
  let w := fresh "w" in
  let Hit := fresh "Hit" in
  let spoken := fresh "spoken" in
  cbn [for_range_down] in H;
  apply bind_inr in H as ([b st] & w & Hit & H);
  apply countdown_iteration_boundary in Hit as (-> & spoken & ->);
  [cbn [fst snd] in H | discriminate].

(** The labels of any timeline the configuration of the example yields. *)
Lemma skip_first_rest_run_labels s cache w audio tl w' :
  start s = 8 -> every_n s = 4 -> skip_first_rest s = 1 ->
  truthy_str (lead_in s) = None -> truthy_str (end_with s) = None ->
  build_countdown_audio s cache w = (inr (audio, tl), w') ->
  map e_label tl =
    ["8"; "beep_skip_rest"; "pause_skip_rest";
     "7"; "beep"; "pause"; "6"; "beep"; "pause"; "5"; "beep"; "pause";
     "4"; rest_text s; "beep"; "pause_long";
     "3"; "beep"; "pause"; "2"; "beep"; "pause"; "1"].
Proof.
  intros Hstart Hevery Hskip Hlead Hend H.
  unfold build_countdown_audio in H.
  apply with_tempdir_run in H as (w0 & H & _).
  apply bind_inr in H as (rest & w1 & _ & H).
  apply bind_inr in H as (st0 & w2 & Hl & H).
  unfold lead_in_block in Hl. rewrite Hlead in Hl.
  apply ret_inr in Hl as [<- _].
  apply bind_inr in H as (st' & w3 & Hloop & H).
  apply ret_inr in H as [H _]. inversion H; subst audio tl. clear H.
  rewrite Hstart in Hloop. change (Z.to_nat 8) with 8%nat in Hloop.
  do 7 countdown_turn Hloop.
  cbn [for_range_down] in Hloop.
  apply bind_inr in Hloop as ([blast stlast] & wlast & Hit & Hloop).
  apply countdown_iteration_last in Hit as (-> & last & ->); [|exact Hend].
  apply ret_inr in Hloop as [<- _]. cbn [snd].
  unfold countdown_boundary, is_rest_boundary. rewrite Hevery, Hskip.
  vm_compute. reflexivity.
Qed.

(** C1 (as the code has it). In numbers mode with [start = 8],
    [every_n = 4], [skip_first_rest = 1], no lead-in and no end phrase,
    every timeline the build returns has the labels below: the boundary at
    count 8 is the skipped rest ("beep_skip_rest", "pause_skip_rest"), and
    the next rest boundary, at count 4, is a true rest cue (the rest text,
    "beep", "pause_long").  And the build does return one when the speech
    service answers, files can be written and the cache can be decoded. *)
Theorem skip_first_rest_labels s cache w :
  start s = 8 -> every_n s = 4 -> skip_first_rest s = 1 ->
  truthy_str (lead_in s) = None -> truthy_str (end_with s) = None ->
  let labels :=
    ["8"; "beep_skip_rest"; "pause_skip_rest";
     "7"; "beep"; "pause"; "6"; "beep"; "pause"; "5"; "beep"; "pause";
     "4"; rest_text s; "beep"; "pause_long";
     "3"; "beep"; "pause"; "2"; "beep"; "pause"; "1"] in
  (forall audio tl w',
     build_countdown_audio s cache w = (inr (audio, tl), w') ->
     map e_label tl = labels) /\
  ((forall n text lang tld,
      exists b, gtts n text lang tld = Some b /\ is_Some (decode_mp3 b)) ->
   (forall p, can_write p = true) ->
   (forall seg, is_Some (decode_mp3 (encode_mp3 None seg))) ->
   cache_decodes md5_hexdigest cache w ->
   exists audio tl w',
     build_countdown_audio s cache w = (inr (audio, tl), w') /\
     map e_label tl = labels).
Proof.
  intros Hstart Hevery Hskip Hlead Hend labels. split.
  - intros audio tl w'. apply skip_first_rest_run_labels; assumption.
  - intros Hsvc Hwr Hre Hw.
    destruct (build_countdown_audio_succeeds cache Hsvc Hwr Hre s w Hw)
      as ([audio tl] & w' & E & _).
    exists audio, tl, w'. split; [exact E|].
    eapply skip_first_rest_run_labels; eauto.
Qed.

(** *** Synthesis of the rest cue *)

Lemma build_countdown_audio_needs_rest s cache w e w1 :
  tts_cached (rest_text s) cache td (lang s) (tld s) 3 1.2%Q w = (inl e, w1) ->
  exists w', build_countdown_audio s cache w = (inl e, w') /\ log w' = log w1.
Proof.
  intros H. unfold build_countdown_audio, with_tempdir, speech.
  rewrite (bind_inl _ _ _ _ _ (bind_inl _ _ _ _ _ H)).
  eexists. split; reflexivity.
Qed.

Lemma is_rest_boundary_disabled s i : every_n s <= 0 -> is_rest_boundary s i = false.
Proof.
  intros H. unfold is_rest_boundary.
  destruct (Z.ltb_spec 0 (every_n s)); [lia|reflexivity].
Qed.

Lemma countdown_boundary_without_rests s r1 r2 beep i st :
  every_n s <= 0 ->
  countdown_boundary s r1 beep i st = countdown_boundary s r2 beep i st.
Proof.
  intros H. unfold countdown_boundary.
  rewrite is_rest_boundary_disabled by exact H. reflexivity.
Qed.

Lemma countdown_loop_without_rests s cache tmp r1 r2 beep :
  every_n s <= 0 ->
  forall n st w,
    for_range_down n (countdown_iteration s cache tmp r1 beep) st w =
    for_range_down n (countdown_iteration s cache tmp r2 beep) st w.
Proof.
  intros H. induction n as [|n IH]; intros st w; [reflexivity|].
  cbn [for_range_down].
  assert (Hit : countdown_iteration s cache tmp r1 beep (Z.of_nat (S n)) st w =
                countdown_iteration s cache tmp r2 beep (Z.of_nat (S n)) st w).
  { unfold countdown_iteration, bind. destruct (speech _ _ _ _ w) as [[e|sp] w1];
      [reflexivity|]. destruct (Z.of_nat (S n) =? 1); [reflexivity|].
    rewrite (countdown_boundary_without_rests s r1 r2) by exact H. reflexivity. }
  unfold bind. rewrite Hit.
  destruct (countdown_iteration _ _ _ r2 _ _ _ _) as [[e|[b st1]] w1];
    [reflexivity|]. cbn [fst snd]. destruct b; [reflexivity|apply IH].
Qed.

Lemma build_minutes_countdown_without_rests s cache w :
  every_n s <= 0 ->
  build_minutes_countdown s cache w =
  with_tempdir td ["tts_tmp.mp3"] (fun tmpdir =>
    bind (lead_in_block s cache tmpdir initial_state) (fun st =>
    bind (for_range_down (Z.to_nat (start s))
            (minutes_iteration s cache tmpdir None
               (make_beep (beep_freq s) (beep_ms s) (beep_gain s))) st)
         (fun st => ret (combined st, timeline st)))) w.
Proof.
  intros H. unfold build_minutes_countdown.
  destruct (Z.ltb_spec 0 (every_n s)); [lia|]. reflexivity.
Qed.

(** *** The desktop front end *)

Lemma generate_countdown_rejects g w n x :
  is_generating g = false ->
  start_var g = Some n -> interval_var g = Some x ->
  n <= 0 \/ (x <= 0)%Q ->
  exists msg, generate_countdown g w = (ShowError msg, g).
Proof.
  intros Hg Hn Hx H. unfold generate_countdown. rewrite Hg, Hn, Hx.
  destruct (Z.leb_spec n 0) as [Hs|Hs]; [eexists; reflexivity|].
  destruct H as [H|H]; [lia|].
  apply Qle_bool_iff in H. rewrite H. eexists; reflexivity.
Qed.

(** *** Files the assemblers touch *)

Lemma keeps_ret {A} tmp (a : A) : keeps tmp (ret a).
Proof. intros w r w' p b H _ Hp. inversion H; subst. exact Hp. Qed.

Lemma keeps_raise {A} tmp e : keeps tmp (raise (A:=A) e).
Proof. intros w r w' p b H _ Hp. inversion H; subst. exact Hp. Qed.

Lemma keeps_bind {A B} tmp (m : M A) (f : A -> M B) :
  keeps tmp m -> (forall a, keeps tmp (f a)) -> keeps tmp (bind m f).
Proof.
  intros Hm Hf w r w' p b H Hne Hp. unfold bind in H.
  destruct (m w) as [[e|a] w1] eqn:E.
  - inversion H; subst. eapply Hm; eauto.
  - eapply Hf; [exact H|exact Hne|]. eapply Hm; eauto.
Qed.

Lemma keeps_try_except {A} tmp (m : M A) h :
  keeps tmp m -> (forall e, keeps tmp (h e)) -> keeps tmp (try_except m h).
Proof.
  intros Hm Hh w r w' p b H Hne Hp. unfold try_except in H.
  destruct (m w) as [[e|a] w1] eqn:E.
  - eapply Hh; [exact H|exact Hne|]. eapply Hm; eauto.
  - inversion H; subst. eapply Hm; eauto.
Qed.

Lemma keeps_write_tmp tmp site b : keeps tmp (write_file site tmp b).
Proof.
  intros w r w' p b' H Hne Hp. unfold write_file in H.
  destruct (can_write tmp); inversion H; subst; [|exact Hp].
  cbn. rewrite lookup_insert_ne by congruence. exact Hp.
Qed.

Lemma keeps_from_mp3 tmp path : keeps tmp (from_mp3 path).
Proof.
  intros w r w' p b H _ Hp. unfold from_mp3, bind, read_file in H.
  destruct (fs w !! path) as [b0|]; [destruct (decode_mp3 b0)|];
    inversion H; subst; exact Hp.
Qed.

Lemma keeps_sleep tmp secs : keeps tmp (sleep secs).
Proof.
  intros w r w' p b H _ Hp. unfold sleep, emit, raise in H.
  destruct (Qle_bool 0 secs); inversion H; subst; exact Hp.
Qed.

Lemma keeps_tts_to_file text tmp lang tld :
  keeps tmp (tts_to_file text tmp lang tld).
Proof.
  intros w r w' p b H Hne Hp. unfold tts_to_file, write_file in H.
  destruct (gtts _ _ _ _) as [b0|]; [destruct (can_write tmp)|];
    inversion H; subst; cbn; [|exact Hp|exact Hp].
  rewrite lookup_insert_ne by congruence. exact Hp.
Qed.

Lemma keeps_retry_loop text tmp lang tld retries delay n :
  forall attempt last,
    keeps tmp (retry_loop text tmp lang tld retries delay n attempt last).
Proof.
  induction n as [|n IH]; intros attempt last.
  - apply keeps_raise.
  - rewrite retry_loop_S. apply keeps_try_except.
    + apply keeps_bind; [apply keeps_tts_to_file|].
      intros _. apply keeps_from_mp3.
    + intros e. apply keeps_bind; [|intros _; apply IH].
      destruct (attempt <? retries - 1); [apply keeps_sleep|apply keeps_ret].
Qed.

(** A cache entry is written only where none was found. *)
Lemma keeps_tts_cached text cache tmpdir lang tld retries delay :
  keeps (path_join tmpdir "tts_tmp.mp3")
    (tts_cached text cache tmpdir lang tld retries delay).
Proof.
  intros w r w' p b H Hne Hp. unfold tts_cached in H.
  unfold bind at 1 in H. unfold exists_file in H.
  destruct (fs w !! cache_path cache text lang tld) as [b0|] eqn:E.
  - rewrite bool_decide_eq_true_2 in H by (eexists; reflexivity).
    eapply (keeps_bind _ (ret tt) (fun _ => from_mp3 _));
      [apply keeps_ret|intros _; apply keeps_from_mp3|exact H|exact Hne|exact Hp].
  - rewrite bool_decide_eq_false_2 in H by (intros [? ?]; discriminate).
    assert (Hpath : cache_path cache text lang tld <> p) by congruence.
    unfold bind at 1 2 in H.
    destruct (tts_with_retry_to_audiosegment _ _ _ _ _ _ w) as [[e|seg] w1] eqn:Er;
      apply (keeps_retry_loop _ _ _ _ _ _ _ _ _ _ _ _ p b) in Er; try assumption.
    + inversion H; subst. exact Er.
    + unfold write_file in H. destruct (can_write _).
      * eapply keeps_from_mp3; [exact H|exact Hne|]. cbn.
        rewrite lookup_insert_ne by exact Hpath. exact Er.
      * inversion H; subst. exact Er.
Qed.

Lemma keeps_speech s cache tmpdir text :
  keeps (path_join tmpdir "tts_tmp.mp3") (speech s cache tmpdir text).
Proof.
  apply keeps_bind; [apply keeps_tts_cached|]. intros raw. apply keeps_ret.
Qed.

Lemma keeps_lead_in_block s cache tmpdir st :
  keeps (path_join tmpdir "tts_tmp.mp3") (lead_in_block s cache tmpdir st).
Proof.
  unfold lead_in_block. destruct (truthy_str _); [|apply keeps_ret].
  apply keeps_bind; [apply keeps_speech|]. intros lead. apply keeps_ret.
Qed.

Lemma keeps_end_block s cache tmpdir st :
  keeps (path_join tmpdir "tts_tmp.mp3") (end_block s cache tmpdir st).
Proof.
  unfold end_block. destruct (truthy_str _); [|apply keeps_ret].
  apply keeps_bind; [apply keeps_speech|]. intros seg. apply keeps_ret.
Qed.

Lemma keeps_for_range_down tmp body :
  (forall i st, keeps tmp (body i st)) ->
  forall n st, keeps tmp (for_range_down n body st).
Proof.
  intros Hb. induction n as [|n IH]; intros st.
  - apply keeps_ret.
  - cbn [for_range_down]. apply keeps_bind; [apply Hb|].
    intros [b st1]. cbn [fst snd]. destruct b; [apply keeps_ret|apply IH].
Qed.

Lemma keeps_countdown_iteration s cache tmpdir rest beep i st :
  keeps (path_join tmpdir "tts_tmp.mp3")
    (countdown_iteration s cache tmpdir rest beep i st).
Proof.
  unfold countdown_iteration. apply keeps_bind; [apply keeps_speech|].
  intros spoken. destruct (i =? 1); [|apply keeps_ret].
  apply keeps_bind; [apply keeps_end_block|]. intros st1. apply keeps_ret.
Qed.

Lemma keeps_minutes_iteration s cache tmpdir rest beep i st :
  keeps (path_join tmpdir "tts_tmp.mp3")
    (minutes_iteration s cache tmpdir rest beep i st).
Proof.
  unfold minutes_iteration. apply keeps_bind.
  - destruct (should_speak_minute i s); [|apply keeps_ret].
    apply keeps_bind; [apply keeps_speech|]. intros spoken. apply keeps_ret.
  - intros st1. destruct (i =? 1); [|apply keeps_ret].
    apply keeps_bind; [apply keeps_end_block|]. intros st2. apply keeps_ret.
Qed.

(** The world a [with] block leaves: that of its body, without the
    files of the temporary directory. *)
Lemma with_tempdir_world {A} files (body : string -> M A) w r w' :
  with_tempdir td files body w = (r, w') ->
  exists w1,
    body td w = (r, w1) /\
    w' = mkWorld (foldr (fun f m => delete (path_join td f) m) (fs w1) files)
           (log w1).
Proof.
  unfold with_tempdir. destruct (body td w) as [r1 w1].
  intros H. inversion H; subst. exists w1. split; reflexivity.
Qed.

Lemma assembler_body_keeps {A} (body : string -> M A) w r w' :
  keeps (path_join td "tts_tmp.mp3") (body td) ->
  with_tempdir td ["tts_tmp.mp3"] body w = (r, w') ->
  fs w' !! path_join td "tts_tmp.mp3" = None /\
  forall p b,
    p <> path_join td "tts_tmp.mp3" -> fs w !! p = Some b -> fs w' !! p = Some b.
Proof.
  intros Hk H. apply with_tempdir_world in H as (w1 & Hb & ->). cbn.
  split; [apply lookup_delete_eq|]. intros p b Hne Hp.
  rewrite lookup_delete_ne by congruence. eapply Hk; eauto.
Qed.

Lemma keeps_countdown_body s cache :
  keeps (path_join td "tts_tmp.mp3") (fun w =>
    bind (speech s cache td (rest_text s)) (fun rest_seg =>
    bind (lead_in_block s cache td initial_state) (fun st =>
    bind (for_range_down (Z.to_nat (start s))
            (countdown_iteration s cache td rest_seg
               (make_beep (beep_freq s) (beep_ms s) (beep_gain s))) st)
         (fun st => ret (combined st, timeline st)))) w).
Proof.
  apply keeps_bind; [apply keeps_speech|]. intros rest.
  apply keeps_bind; [apply keeps_lead_in_block|]. intros st.
  apply keeps_bind; [|intros st1; apply keeps_ret].
  apply keeps_for_range_down. intros i st0. apply keeps_countdown_iteration.
Qed.

Lemma keeps_minutes_body s cache :
  keeps (path_join td "tts_tmp.mp3") (fun w =>
    bind (if 0 <? every_n s
          then bind (speech s cache td (rest_text s)) (fun r => ret (Some r))
          else ret None) (fun rest_seg =>
    bind (lead_in_block s cache td initial_state) (fun st =>
    bind (for_range_down (Z.to_nat (start s))
            (minutes_iteration s cache td rest_seg
               (make_beep (beep_freq s) (beep_ms s) (beep_gain s))) st)
         (fun st => ret (combined st, timeline st)))) w).
Proof.
  apply keeps_bind.
  - destruct (0 <? every_n s); [|apply keeps_ret].
    apply keeps_bind; [apply keeps_speech|]. intros r. apply keeps_ret.
  - intros rest. apply keeps_bind; [apply keeps_lead_in_block|]. intros st.
    apply keeps_bind; [|intros st1; apply keeps_ret].
    apply keeps_for_range_down. intros i st0. apply keeps_minutes_iteration.
Qed.

(** X1. Whatever its outcome, an assembler leaves no temporary download
    behind and never changes or removes a file that was there before
    (other than that download): in particular it never overwrites an
    entry of the speech cache. *)
Theorem assembler_keeps_files s cache w r w' :
  build_countdown_audio s cache w = (r, w') \/
  build_minutes_countdown s cache w = (r, w') ->
  fs w' !! path_join td "tts_tmp.mp3" = None /\
  forall p b,
    p <> path_join td "tts_tmp.mp3" -> fs w !! p = Some b -> fs w' !! p = Some b.
Proof.
  intros [H|H].
  - eapply assembler_body_keeps; [|exact H]. apply keeps_countdown_body.
  - eapply assembler_body_keeps; [|exact H]. apply keeps_minutes_body.
Qed.

(** *** A second run *)

Section WarmCache.

Variable cache : string.
Hypothesis tmp_outside_cache :
  forall text lang tld,
    cache_path cache text lang tld <> path_join td "tts_tmp.mp3".

#[local] Set Default Proof Using "Type tmp_outside_cache".

Local Abbreviation grows := (cache_grows md5_hexdigest cache).
Local Abbreviation again := (replays md5_hexdigest cache).

Lemma grows_refl w : grows w w.
Proof using Type. intros text lang tld b H. exact H. Qed.

Lemma grows_trans w1 w2 w3 : grows w1 w2 -> grows w2 w3 -> grows w1 w3.
Proof using Type. intros H1 H2 text lang tld b H. apply H2, H1, H. Qed.

Lemma keeps_grows {A} (m : M A) w r w' :
  keeps (path_join td "tts_tmp.mp3") m -> m w = (r, w') -> grows w w'.
Proof.
  intros Hk H text lang tld b Hp.
  eapply Hk; [exact H|apply tmp_outside_cache|exact Hp].
Qed.

Lemma again_ret {A} (a : A) : again (ret a).
Proof using Type.
  intros w a' w' H. apply ret_inr in H as [<- <-].
  split; [apply grows_refl|]. intros wf _. reflexivity.
Qed.

Lemma again_bind {A B} (m : M A) (f : A -> M B) :
  again m -> (forall a, again (f a)) -> again (bind m f).
Proof using Type.
  intros Hm Hf w b w2 H. apply bind_inr in H as (a & w1 & Em & Ef).
  destruct (Hm _ _ _ Em) as [G1 R1]. destruct (Hf _ _ _ _ Ef) as [G2 R2].
  split; [eapply grows_trans; eauto|]. intros wf Gf.
  rewrite (bind_run _ _ _ _ _ (R1 wf (grows_trans _ _ _ G2 Gf))).
  apply R2, Gf.
Qed.

Lemma again_tts_cached text lang tld retries delay :
  again (tts_cached text cache td lang tld retries delay).
Proof.
  intros w seg w' H. split.
  - eapply keeps_grows; [apply keeps_tts_cached|exact H].
  - intros wf Gf. apply tts_cached_stored in H as (b & Hb & Hd).
    eapply tts_cached_hit; [apply Gf, Hb|exact Hd].
Qed.

Lemma again_speech s text : again (speech s cache td text).
Proof.
  apply again_bind; [apply again_tts_cached|]. intros raw. apply again_ret.
Qed.

Lemma again_lead_in_block s st : again (lead_in_block s cache td st).
Proof.
  unfold lead_in_block. destruct (truthy_str _); [|apply again_ret].
  apply again_bind; [apply again_speech|]. intros lead. apply again_ret.
Qed.

Lemma again_end_block s st : again (end_block s cache td st).
Proof.
  unfold end_block. destruct (truthy_str _); [|apply again_ret].
  apply again_bind; [apply again_speech|]. intros seg. apply again_ret.
Qed.

Lemma again_for_range_down body :
  (forall i st, again (body i st)) ->
  forall n st, again (for_range_down n body st).
Proof using Type.
  intros Hb. induction n as [|n IH]; intros st.
  - apply again_ret.
  - cbn [for_range_down]. apply again_bind; [apply Hb|].
    intros [b st1]. cbn [fst snd]. destruct b; [apply again_ret|apply IH].
Qed.

Lemma again_countdown_iteration s rest beep i st :
  again (countdown_iteration s cache td rest beep i st).
Proof.
  unfold countdown_iteration. apply again_bind; [apply again_speech|].
  intros spoken. destruct (i =? 1); [|apply again_ret].
  apply again_bind; [apply again_end_block|]. intros st1. apply again_ret.
Qed.

Lemma again_minutes_iteration s rest beep i st :
  again (minutes_iteration s cache td rest beep i st).
Proof.
  unfold minutes_iteration. apply again_bind.
  - destruct (should_speak_minute i s); [|apply again_ret].
    apply again_bind; [apply again_speech|]. intros spoken. apply again_ret.
  - intros st1. destruct (i =? 1); [|apply again_ret].
    apply again_bind; [apply again_end_block|]. intros st2. apply again_ret.
Qed.

(** A [with] block whose body can be replayed can be replayed from the
    world it left. *)
Lemma with_tempdir_again {A} (body : string -> M A) w a w' :
  again (body td) ->
  with_tempdir td ["tts_tmp.mp3"] body w = (inr a, w') ->
  with_tempdir td ["tts_tmp.mp3"] body w' = (inr a, w').
Proof.
  intros Hb H. apply with_tempdir_world in H as (w1 & E & ->).
  destruct (Hb _ _ _ E) as [_ R]. cbn [foldr].
  set (wf := mkWorld (delete (path_join td "tts_tmp.mp3") (fs w1)) (log w1)).
  assert (Gf : grows w1 wf).
  { intros text lang tld b Hp. cbn.
    rewrite lookup_delete_ne by (apply not_eq_sym, tmp_outside_cache). exact Hp. }
  unfold with_tempdir. rewrite (R wf Gf). cbn [foldr]. f_equal. unfold wf. cbn.
  f_equal. apply delete_id, lookup_delete_eq.
Qed.

(** X2. Repeated runs are served from the cache: when an assembler has
    returned a track, the same assembler run again in the world it left
    returns the same track and timeline and leaves that world exactly as
    it is, so it makes no speech request and writes no file.  The
    temporary download is assumed not to lie at a cache path. *)
Theorem assembler_second_run s w r w' :
  (build_countdown_audio s cache w = (inr r, w') ->
   build_countdown_audio s cache w' = (inr r, w')) /\
  (build_minutes_countdown s cache w = (inr r, w') ->
   build_minutes_countdown s cache w' = (inr r, w')).
Proof.
  split; intros H.
  - unfold build_countdown_audio in *.
    eapply with_tempdir_again; [|exact H].
    apply again_bind; [apply again_speech|]. intros rest.
    apply again_bind; [apply again_lead_in_block|]. intros st.
    apply again_bind; [|intros st1; apply again_ret].
    apply again_for_range_down. intros i st0. apply again_countdown_iteration.
  - unfold build_minutes_countdown in *.
    eapply with_tempdir_again; [|exact H].
    apply again_bind.
    + destruct (0 <? every_n s); [|apply again_ret].
      apply again_bind; [apply again_speech|]. intros r0. apply again_ret.
    + intros rest. apply again_bind; [apply again_lead_in_block|]. intros st.
      apply again_bind; [|intros st1; apply again_ret].
      apply again_for_range_down. intros i st0. apply again_minutes_iteration.
Qed.

End WarmCache.

#[local] Set Default Proof Using "Type".

(** *** Requests of a cached synthesis *)

Lemma requests_same_log w w' : log w' = log w -> requests w' = requests w.
Proof. unfold requests. intros ->. reflexivity. Qed.

Lemma sleep_requests secs w r w' : sleep secs w = (r, w') -> requests w' = requests w.
Proof.
  unfold sleep, emit, raise. destruct (Qle_bool 0 secs); intros H;
    inversion H; subst; [|reflexivity].
  rewrite (requests_extend w _ [EvSleep secs]) by reflexivity. cbn. lia.
Qed.

Lemma retry_loop_requests text out lang tld retries delay n :
  forall attempt last w r w',
    retry_loop text out lang tld retries delay n attempt last w = (r, w') ->
    (requests w <= requests w')%nat /\
    (requests w' <= requests w + n)%nat /\
    ((1 <= n)%nat -> (requests w < requests w')%nat).
Proof.
  induction n as [|n IH]; intros attempt last w r w' H.
  - inversion H; subst. repeat split; lia.
  - rewrite retry_loop_S in H. unfold try_except in H.
    destruct (bind _ _ w) as [[e|seg] w1] eqn:E;
      apply attempt_run in E as (evs1 & L1 & C1 & _).
    + assert (R1 : requests w1 = S (requests w)).
      { rewrite (requests_extend _ _ _ L1), C1. lia. }
      unfold bind at 1 in H.
      assert (Hstep : exists rs w2,
                (if attempt <? retries - 1
                 then sleep (delay * inject_Z (attempt + 1))
                 else ret tt) w1 = (rs, w2) /\ requests w2 = requests w1).
      { destruct (attempt <? retries - 1).
        - destruct (sleep (delay * inject_Z (attempt + 1)) w1) as [rs w2] eqn:Es.
          exists rs, w2. split; [reflexivity|]. eapply sleep_requests; eauto.
        - exists (inr tt), w1. split; reflexivity. }
      destruct Hstep as (rs & w2 & Es & R2). rewrite Es in H.
      destruct rs as [e2|u].
      * inversion H; subst. repeat split; lia.
      * apply IH in H as (Hmono & Hle & _). repeat split; lia.
    + inversion H; subst.
      assert (requests w' = S (requests w)).
      { rewrite (requests_extend _ _ _ L1), C1. lia. }
      repeat split; lia.
Qed.

(** X3. A call of [tts_cached] that finds its cache file leaves the
    world as it is (no request, no write) and returns what the stored
    bytes decode to, or the decoding error when they do not decode: a
    damaged entry is never repaired.  A call that does not find the file
    sends at most [retries] requests, and at least one when [retries] is
    positive. *)
Theorem tts_cached_hit_or_miss text cache tmp lang tld retries delay w r w' :
  tts_cached text cache tmp lang tld retries delay w = (r, w') ->
  (forall b,
     fs w !! cache_path cache text lang tld = Some b ->
     w' = w /\
     r = match decode_mp3 b with
         | Some seg => inr seg
         | None => inl CouldntDecodeError
         end) /\
  (fs w !! cache_path cache text lang tld = None ->
   (requests w' <= requests w + Z.to_nat retries)%nat /\
   (0 < retries -> (requests w < requests w')%nat)).
Proof.
  intros H. unfold tts_cached in H. unfold bind at 1 in H.
  unfold exists_file in H. split.
  - intros b Hb. rewrite Hb in H.
    rewrite bool_decide_eq_true_2 in H by (eexists; reflexivity).
    unfold bind, ret, from_mp3, bind, read_file in H. rewrite Hb in H.
    destruct (decode_mp3 b); inversion H; subst; split; reflexivity.
  - intros Hn. rewrite Hn in H.
    rewrite bool_decide_eq_false_2 in H by (intros [? ?]; discriminate).
    unfold bind at 1 2 in H.
    destruct (tts_with_retry_to_audiosegment _ _ _ _ _ _ w) as [[e|seg] w1] eqn:Er;
      apply retry_loop_requests in Er as (_ & Hle & Hlt).
    + inversion H; subst. split; [exact Hle|]. intros Hr. apply Hlt. lia.
    + assert (Hw : requests w' = requests w1).
      { unfold write_file in H. destruct (can_write _).
        - pose proof (emits_from_mp3 (fun _ => False) _ _ _ _ H) as (evs & L & F).
          destruct evs as [|x evs]; [|inversion F; contradiction].
          rewrite app_nil_r in L. cbn in L.
          rewrite (requests_extend w1 w' _ L). cbn. lia.
        - inversion H; subst. reflexivity. }
      rewrite Hw. split; [exact Hle|]. intros Hr. apply Hlt. lia.
Qed.

(** *** Shape of the timeline *)

Lemma lead_in_block_labels s cache tmp st w st' w' :
  lead_in_block s cache tmp st w = (inr st', w') ->
  map e_label (timeline st') = map e_label (timeline st) ++ lead_in_labels s /\
  (truthy_str (lead_in s) = None -> st' = st).
Proof.
  unfold lead_in_block, lead_in_labels.
  destruct (truthy_str (lead_in s)) as [txt|]; intros H.
  - apply bind_inr in H as (lead & w1 & _ & H). apply ret_inr in H as [<- _].
    split; [|discriminate].
    destruct (0 <? lead_in_gap_ms s); cbn; rewrite !map_app, <- ?app_assoc;
      reflexivity.
  - apply ret_inr in H as [<- _]. rewrite app_nil_r. auto.
Qed.

Lemma end_block_labels s cache tmp st w st' w' :
  end_block s cache tmp st w = (inr st', w') ->
  map e_label (timeline st') = map e_label (timeline st) ++ end_labels s.
Proof.
  unfold end_block, end_labels.
  destruct (truthy_str (end_with s)) as [txt|]; intros H.
  - apply bind_inr in H as (seg & w1 & _ & H). apply ret_inr in H as [<- _].
    cbn. rewrite map_app. reflexivity.
  - apply ret_inr in H as [<- _]. rewrite app_nil_r. reflexivity.
Qed.

(** X4. With [start <= 0] the loop does not run: either assembler
    returns the lead-in entries only, the end phrase is not spoken even
    when one is configured, and without a lead-in the track is the empty
    segment and the timeline is empty. *)
Theorem assembler_without_counts s cache w audio tl w' :
  start s <= 0 ->
  build_countdown_audio s cache w = (inr (audio, tl), w') \/
  build_minutes_countdown s cache w = (inr (audio, tl), w') ->
  map e_label tl = lead_in_labels s /\
  (truthy_str (lead_in s) = None ->
   tl = [] /\ audio = silent 0 TARGET_RATE).
Proof.
  intros Hs H.
  assert (Hn : Z.to_nat (start s) = 0%nat) by lia.
  assert (Hst : exists st0 w0 w1,
             lead_in_block s cache td initial_state w0 = (inr st0, w1) /\
             audio = combined st0 /\ tl = timeline st0).
  { destruct H as [H|H].
    - unfold build_countdown_audio in H.
      apply with_tempdir_run in H as (w1 & H & _).
      apply bind_inr in H as (rest & w2 & _ & H).
      apply bind_inr in H as (st0 & w3 & Hl & H).
      rewrite Hn in H. cbn [for_range_down] in H.
      apply bind_inr in H as (st1 & w4 & Hf & H).
      apply ret_inr in Hf as [<- _]. apply ret_inr in H as [H _].
      inversion H; subst. do 3 eexists. split; [exact Hl|split; reflexivity].
    - unfold build_minutes_countdown in H.
      apply with_tempdir_run in H as (w1 & H & _).
      apply bind_inr in H as (rest & w2 & _ & H).
      apply bind_inr in H as (st0 & w3 & Hl & H).
      rewrite Hn in H. cbn [for_range_down] in H.
      apply bind_inr in H as (st1 & w4 & Hf & H).
      apply ret_inr in Hf as [<- _]. apply ret_inr in H as [H _].
      inversion H; subst. do 3 eexists. split; [exact Hl|split; reflexivity]. }
  destruct Hst as (st0 & w0 & w1 & Hl & -> & ->).
  apply lead_in_block_labels in Hl as [Hlab Hnone]. split; [exact Hlab|].
  intros Hno. rewrite (Hnone Hno). split; reflexivity.
Qed.

(** The labels of the numbers loop when rests are disabled. *)
Lemma plain_loop_labels s cache tmp rest beep :
  every_n s <= 0 ->
  forall n st w st' w',
    for_range_down n (countdown_iteration s cache tmp rest beep) st w
      = (inr st', w') ->
    map e_label (timeline st') =
    map e_label (timeline st) ++ plain_labels n ++
    match n with O => [] | S _ => end_labels s end.
Proof.
  intros Hev. induction n as [|k IH]; intros st w st' w' H.
  - apply ret_inr in H as [<- _]. cbn. rewrite app_nil_r. reflexivity.
  - cbn [for_range_down] in H.
    apply bind_inr in H as ([b st1] & w1 & Hit & H). cbn [fst snd] in H.
    destruct k as [|k'].
    + unfold countdown_iteration in Hit.
      apply bind_inr in Hit as (spoken & w2 & _ & Hit).
      change (Z.of_nat 1 =? 1) with true in Hit. cbv iota in Hit.
      apply bind_inr in Hit as (st2 & w3 & He & Hit).
      apply ret_inr in Hit as [Hit _]. inversion Hit; subst.
      apply ret_inr in H as [<- _].
      apply end_block_labels in He. rewrite He. cbn.
      rewrite map_app, <- app_assoc. reflexivity.
    + apply countdown_iteration_boundary in Hit as (-> & spoken & ->); [|lia].
      apply IH in H. rewrite H. unfold countdown_boundary.
      rewrite is_rest_boundary_disabled by exact Hev. cbn [timeline append_cue].
      rewrite !map_app, <- !app_assoc. reflexivity.
Qed.

Lemma plain_labels_length n :
  (1 <= n)%nat -> length (plain_labels n) = (3 * n - 2)%nat.
Proof.
  induction n as [|k IH]; [lia|]. intros _. destruct k as [|k']; [reflexivity|].
  change (length (plain_labels (S (S k')))) with (3 + length (plain_labels (S k')))%nat.
  rewrite IH by lia. lia.
Qed.

(** X5. In numbers mode with rests disabled ([every_n <= 0]) the timeline
    is the lead-in, then for every count from [start] down to 2 the count,
    "beep" and "pause", then the count 1 and the end phrase: three entries
    per count but the last, [3 * start - 2] for the countdown itself. *)
Theorem plain_countdown_labels s cache w audio tl w' :
  every_n s <= 0 ->
  build_countdown_audio s cache w = (inr (audio, tl), w') ->
  map e_label tl =
    lead_in_labels s ++ plain_labels (Z.to_nat (start s)) ++
    (if 0 <? start s then end_labels s else []) /\
  (0 < start s ->
   length tl =
   (length (lead_in_labels s) + (3 * Z.to_nat (start s) - 2) +
    length (end_labels s))%nat).
Proof.
  intros Hev H. unfold build_countdown_audio in H.
  apply with_tempdir_run in H as (w1 & H & _).
  apply bind_inr in H as (rest & w2 & _ & H).
  apply bind_inr in H as (st0 & w3 & Hl & H).
  apply bind_inr in H as (st1 & w4 & Hf & H).
  apply ret_inr in H as [H _]. inversion H; subst audio tl. clear H.
  apply lead_in_block_labels in Hl as [Hl _].
  apply (plain_loop_labels _ _ _ _ _ Hev) in Hf. rewrite Hl in Hf. cbn in Hf.
  assert (Hlab : map e_label (timeline st1) =
                 lead_in_labels s ++ plain_labels (Z.to_nat (start s)) ++
                 (if 0 <? start s then end_labels s else [])).
  { rewrite Hf. f_equal. f_equal.
    destruct (Z.ltb_spec 0 (start s)) as [Hp|Hp].
    - destruct (Z.to_nat (start s)) eqn:E; [lia|reflexivity].
    - destruct (Z.to_nat (start s)) eqn:E; [reflexivity|lia]. }
  split; [exact Hlab|]. intros Hp.
  rewrite <- (length_map e_label), Hlab, !length_app.
  rewrite plain_labels_length by lia.
  destruct (Z.ltb_spec 0 (start s)); lia.
Qed.

(** The loop leaves by its [break], at count 1. *)
Lemma for_range_down_ends body :
  (forall i st w b st' w',
     body i st w = (inr (b, st'), w') -> b = (i =? 1)) ->
  forall n st w st' w',
    (1 <= n)%nat ->
    for_range_down n body st w = (inr st', w') ->
    exists st0 w0, body 1 st0 w0 = (inr (true, st'), w').
Proof.
  intros Hflag. induction n as [|k IH]; intros st w st' w' Hn H; [lia|].
  cbn [for_range_down] in H.
  apply bind_inr in H as ([b st1] & w1 & Hit & H). cbn [fst snd] in H.
  pose proof (Hflag _ _ _ _ _ _ Hit) as Hb. destruct k as [|k'].
  - change (Z.of_nat 1 =? 1) with true in Hb. subst b.
    apply ret_inr in H as [<- <-]. exists st, w. exact Hit.
  - assert (Hne : (Z.of_nat (S (S k')) =? 1) = false) by (apply Z.eqb_neq; lia).
    rewrite Hne in Hb. subst b. eapply IH; [lia|exact H].
Qed.

Lemma countdown_iteration_flag s cache tmp rest beep i st w b st' w' :
  countdown_iteration s cache tmp rest beep i st w = (inr (b, st'), w') ->
  b = (i =? 1).
Proof.
  unfold countdown_iteration. intros H.
  apply bind_inr in H as (spoken & w1 & _ & H). destruct (i =? 1).
  - apply bind_inr in H as (st1 & w2 & _ & H). apply ret_inr in H as [H _].
    inversion H; reflexivity.
  - apply ret_inr in H as [H _]. inversion H; reflexivity.
Qed.

Lemma minutes_iteration_flag s cache tmp rest beep i st w b st' w' :
  minutes_iteration s cache tmp rest beep i st w = (inr (b, st'), w') ->
  b = (i =? 1).
Proof.
  unfold minutes_iteration. intros H.
  apply bind_inr in H as (st0 & w1 & _ & H). destruct (i =? 1).
  - apply bind_inr in H as (st1 & w2 & _ & H). apply ret_inr in H as [H _].
    inversion H; reflexivity.
  - apply ret_inr in H as [H _]. inversion H; reflexivity.
Qed.

Lemma end_block_last s cache tmp st w st' w' txt :
  truthy_str (end_with s) = Some txt ->
  end_block s cache tmp st w = (inr st', w') ->
  exists e, last (timeline st') = Some e /\ e_label e = txt.
Proof.
  unfold end_block. intros -> H.
  apply bind_inr in H as (seg & w1 & _ & H). apply ret_inr in H as [<- _].
  cbn. rewrite last_snoc. eexists. split; reflexivity.
Qed.

Lemma for_range_down_last_two body :
  (forall i st w b st' w',
     body i st w = (inr (b, st'), w') -> b = (i =? 1)) ->
  forall n st w st' w',
    (2 <= n)%nat ->
    for_range_down n body st w = (inr st', w') ->
    exists sa wa sb wb,
      body 2 sa wa = (inr (false, sb), wb) /\
      body 1 sb wb = (inr (true, st'), w').
Proof.
  intros Hflag. induction n as [|k IH]; intros st w st' w' Hn H; [lia|].
  cbn [for_range_down] in H.
  apply bind_inr in H as ([b st1] & w1 & Hit & H). cbn [fst snd] in H.
  pose proof (Hflag _ _ _ _ _ _ Hit) as Hb.
  destruct k as [|[|k']]; [lia| |].
  - change (Z.of_nat 2 =? 1) with false in Hb. subst b.
    cbn [for_range_down] in H.
    apply bind_inr in H as ([b2 st2] & w2 & Hit2 & H). cbn [fst snd] in H.
    pose proof (Hflag _ _ _ _ _ _ Hit2) as Hb2.
    change (Z.of_nat 1 =? 1) with true in Hb2. subst b2.
    apply ret_inr in H as [<- <-]. exists st, w, st1, w1. split; assumption.
  - assert (Hne : (Z.of_nat (S (S (S k'))) =? 1) = false)
      by (apply Z.eqb_neq; lia).
    rewrite Hne in Hb. subst b. eapply IH; [lia|exact H].
Qed.

Lemma minutes_boundary_last s rest beep i st :
  exists e,
    last (timeline (minutes_boundary s rest beep i st)) = Some e /\
    e_label e ∈ ["pause"; "pause_long"; "pause_skip_rest"].
Proof.
  unfold minutes_boundary.
  destruct (is_rest_boundary s i);
    [destruct (skipped_rests st <? skip_first_rest s)|];
    cbn; rewrite last_snoc; eexists; (split; [reflexivity|]); cbn;
    repeat constructor.
Qed.

(** X6. With [start >= 1], in numbers mode the last entry of the
    timeline is the end phrase, or the count "1" when there is none.  In
    minutes mode it is the end phrase when one is configured; without
    one it is the announcement of minute 1 when that minute is spoken;
    and when it is not, the timeline ends on the silence after minute 2
    ("pause", "pause_long" or "pause_skip_rest") for [start >= 2] and
    holds the lead-in only for [start = 1]. *)
Theorem timeline_last_entry s cache w audio tl w' :
  0 < start s ->
  (build_countdown_audio s cache w = (inr (audio, tl), w') ->
   exists e, last tl = Some e /\
             e_label e = match truthy_str (end_with s) with
                         | Some txt => txt
                         | None => "1"
                         end) /\
  (build_minutes_countdown s cache w = (inr (audio, tl), w') ->
   (forall txt, truthy_str (end_with s) = Some txt ->
      exists e, last tl = Some e /\ e_label e = txt) /\
   (truthy_str (end_with s) = None -> should_speak_minute 1 s = true ->
      exists e, last tl = Some e /\ e_label e = minute_label s 1) /\
   (truthy_str (end_with s) = None -> should_speak_minute 1 s = false ->
      (start s = 1 -> map e_label tl = lead_in_labels s) /\
      (1 < start s ->
       exists e, last tl = Some e /\
                 e_label e ∈ ["pause"; "pause_long"; "pause_skip_rest"]))).
Proof.
  intros Hs. split; intros H.
  - unfold build_countdown_audio in H.
    apply with_tempdir_run in H as (w1 & H & _).
    apply bind_inr in H as (rest & w2 & _ & H).
    apply bind_inr in H as (st0 & w3 & _ & H).
    apply bind_inr in H as (st1 & w4 & Hf & H).
    apply ret_inr in H as [H _]. inversion H; subst audio tl. clear H.
    apply for_range_down_ends in Hf as (st2 & w5 & Hit);
      [|intros *; apply countdown_iteration_flag|lia].
    unfold countdown_iteration in Hit.
    apply bind_inr in Hit as (spoken & w6 & _ & Hit).
    change (1 =? 1) with true in Hit. cbv iota in Hit.
    apply bind_inr in Hit as (st3 & w7 & He & Hit).
    apply ret_inr in Hit as [Hit _]. inversion Hit; subst st3.
    destruct (truthy_str (end_with s)) as [txt|] eqn:Et.
    + eapply end_block_last; eauto.
    + unfold end_block in He. rewrite Et in He. apply ret_inr in He as [<- _].
      cbn. rewrite last_snoc. eexists. split; reflexivity.
  - unfold build_minutes_countdown in H.
    apply with_tempdir_run in H as (w1 & H & _).
    apply bind_inr in H as (rest & w2 & _ & H).
    apply bind_inr in H as (st0 & w3 & Hl & H).
    apply bind_inr in H as (st1 & w4 & Hf & H).
    apply ret_inr in H as [H _]. inversion H; subst audio tl. clear H.
    assert (Hlast : exists st2 w5,
               minutes_iteration s cache td rest
                 (make_beep (beep_freq s) (beep_ms s) (beep_gain s)) 1 st2 w5
               = (inr (true, st1), w4)).
    { apply for_range_down_ends in Hf as (st2 & w5 & Hit);
        [eauto|intros *; apply minutes_iteration_flag|lia]. }
    destruct Hlast as (st2 & w5 & Hit).
    unfold minutes_iteration in Hit.
    apply bind_inr in Hit as (st3 & w6 & Hsp & Hit).
    change (1 =? 1) with true in Hit. cbv iota in Hit.
    apply bind_inr in Hit as (st4 & w7 & He & Hit).
    apply ret_inr in Hit as [Hit _]. inversion Hit; subst st4.
    split; [|split].
    + intros txt Et. eapply end_block_last; eauto.
    + intros Et Hspeak. unfold end_block in He. rewrite Et in He.
      apply ret_inr in He as [<- _]. rewrite Hspeak in Hsp.
      apply bind_inr in Hsp as (spoken & w8 & _ & Hsp).
      apply ret_inr in Hsp as [<- _].
      cbn. rewrite last_snoc. eexists. split; reflexivity.
    + intros Et Hspeak. unfold end_block in He. rewrite Et in He.
      apply ret_inr in He as [<- _]. rewrite Hspeak in Hsp.
      apply ret_inr in Hsp as [<- _]. clear Hit. split.
      * intros H1. rewrite H1 in Hf. change (Z.to_nat 1) with 1%nat in Hf.
        cbn [for_range_down] in Hf.
        apply bind_inr in Hf as ([b sx] & wx & Hit & Hf). cbn [fst snd] in Hf.
        assert (Hsx : sx = st2).
        { destruct b; apply ret_inr in Hf as [Hf _]; exact Hf. }
        subst sx. unfold minutes_iteration in Hit.
        change (Z.of_nat 1) with 1 in Hit. rewrite Hspeak in Hit.
        apply bind_inr in Hit as (sy & wy & Hy & Hit).
        apply ret_inr in Hy as [<- _].
        change (1 =? 1) with true in Hit. cbv iota in Hit.
        apply bind_inr in Hit as (sz & wz & Hz & Hit).
        apply ret_inr in Hit as [Hit _]. inversion Hit; subst sz.
        unfold end_block in Hz. rewrite Et in Hz. apply ret_inr in Hz as [-> _].
        apply lead_in_block_labels in Hl as [Hl _]. exact Hl.
      * intros H1.
        apply for_range_down_last_two in Hf as (sa & wa & sb & wb & H2 & Hone);
          [|intros *; apply minutes_iteration_flag|lia].
        apply minutes_iteration_boundary in H2 as (_ & sc & _ & ->);
          [|discriminate].
        unfold minutes_iteration in Hone. rewrite Hspeak in Hone.
        apply bind_inr in Hone as (sy & wy & Hy & Hone).
        apply ret_inr in Hy as [<- _].
        change (1 =? 1) with true in Hone. cbv iota in Hone.
        apply bind_inr in Hone as (sz & wz & Hz & Hone).
        apply ret_inr in Hone as [Hone _]. inversion Hone; subst sz.
        unfold end_block in Hz. rewrite Et in Hz. apply ret_inr in Hz as [<- _].
        apply minutes_boundary_last.
Qed.

(** *** Which rests are skipped *)

Lemma rests_above_top s n : rests_above s n n = 0%nat.
Proof. unfold rests_above. rewrite Nat.sub_diag. reflexivity. Qed.

Lemma rests_above_step s n k :
  (k < n)%nat ->
  rests_above s n k =
  ((if is_rest_boundary s (Z.of_nat (S k)) then 1 else 0) +
   rests_above s n (S k))%nat.
Proof.
  intros Hk. unfold rests_above.
  replace (n - k)%nat with (S (n - S k)) by lia. cbn [seq List.filter].
  destruct (is_rest_boundary s (Z.of_nat (S k))); reflexivity.
Qed.

Lemma lead_in_block_skipped s cache tmp st w st' w' :
  lead_in_block s cache tmp st w = (inr st', w') ->
  skipped_rests st' = skipped_rests st.
Proof.
  unfold lead_in_block. destruct (truthy_str (lead_in s)); intros H.
  - apply bind_inr in H as (lead & w1 & _ & H). apply ret_inr in H as [<- _].
    destruct (0 <? lead_in_gap_ms s); reflexivity.
  - apply ret_inr in H as [<- _]. reflexivity.
Qed.

Lemma skipping_loop_labels s cache tmp rest beep n :
  forall m st w st' w',
    (m <= n)%nat ->
    skipped_rests st =
      Z.min (Z.of_nat (rests_above s n m)) (Z.max 0 (skip_first_rest s)) ->
    for_range_down m (countdown_iteration s cache tmp rest beep) st w
      = (inr st', w') ->
    map e_label (timeline st') =
    map e_label (timeline st) ++ flat_map (count_labels s n) (rev (seq 1 m)).
Proof.
  induction m as [|k IH]; intros st w st' w' Hm Hc H.
  - apply ret_inr in H as [<- _]. cbn. rewrite app_nil_r. reflexivity.
  - cbn [for_range_down] in H.
    apply bind_inr in H as ([b st1] & w1 & Hit & H). cbn [fst snd] in H.
    rewrite seq_S, rev_app_distr. cbn [rev app flat_map Nat.add].
    destruct k as [|k'].
    + unfold countdown_iteration in Hit.
      apply bind_inr in Hit as (spoken & w2 & _ & Hit).
      change (Z.of_nat 1 =? 1) with true in Hit. cbv iota in Hit.
      apply bind_inr in Hit as (st2 & w3 & He & Hit).
      apply ret_inr in Hit as [Hit _]. inversion Hit; subst.
      apply ret_inr in H as [<- _].
      apply end_block_labels in He. rewrite He. cbn.
      rewrite map_app, <- app_assoc, app_nil_r. reflexivity.
    + apply countdown_iteration_boundary in Hit as (-> & spoken & ->); [|lia].
      unfold count_labels at 1.
      replace (S (S k') =? 1)%nat with false by reflexivity.
      set (st0 := append_cue _ spoken _ st) in *.
      assert (Hk0 : skipped_rests st0 = skipped_rests st) by reflexivity.
      set (R := rests_above s n (S (S k'))) in *.
      assert (Hrest :
        exists st1,
          countdown_boundary s rest beep (Z.of_nat (S (S k'))) st0 = st1 /\
          skipped_rests st1 =
            Z.min (Z.of_nat (rests_above s n (S k')))
                  (Z.max 0 (skip_first_rest s)) /\
          map e_label (timeline st1) =
            map e_label (timeline st) ++
            pretty (Z.of_nat (S (S k'))) ::
            (if is_rest_boundary s (Z.of_nat (S (S k'))) then
               if Z.of_nat R <? skip_first_rest s
               then ["beep_skip_rest"; "pause_skip_rest"]
               else [rest_text s; "beep"; "pause_long"]
             else ["beep"; "pause"])).
      { eexists. split; [reflexivity|]. unfold countdown_boundary.
        rewrite (rests_above_step s n (S k')) by lia. fold R.
        destruct (is_rest_boundary s (Z.of_nat (S (S k')))).
        - rewrite Hk0, Hc.
          destruct (Z.ltb_spec (Z.of_nat R) (skip_first_rest s)) as [Hlt|Hge].
          + destruct (Z.ltb_spec (Z.min (Z.of_nat R) (Z.max 0 (skip_first_rest s)))
                        (skip_first_rest s)); [|lia].
            split; [cbn; lia|].
            cbn. rewrite !map_app, <- !app_assoc. reflexivity.
          + destruct (Z.ltb_spec (Z.min (Z.of_nat R) (Z.max 0 (skip_first_rest s)))
                        (skip_first_rest s)); [lia|].
            split; [cbn; lia|].
            cbn. rewrite !map_app, <- !app_assoc. reflexivity.
        - split; [cbn; rewrite Hc; reflexivity|].
          cbn. rewrite !map_app, <- !app_assoc. reflexivity. }
      destruct Hrest as (st1 & Hst1 & Hc1 & Hl1). rewrite Hst1 in H.
      apply IH in H; [|lia|exact Hc1]. rewrite H, Hl1, <- app_assoc.
      reflexivity.
Qed.

(** X7. In numbers mode the rest boundaries that are skipped are exactly
    the first [skip_first_rest] ones met on the way down from [start]:
    the boundary of a count [i >= 2] with [i % every_n == 0] is recorded
    as "beep_skip_rest", "pause_skip_rest" when fewer than
    [skip_first_rest] rest boundaries lie above [i], and as the rest cue
    otherwise; every other boundary is "beep", "pause". *)
Theorem skipped_rests_come_first s cache w audio tl w' :
  build_countdown_audio s cache w = (inr (audio, tl), w') ->
  map e_label tl =
    lead_in_labels s ++
    flat_map (count_labels s (Z.to_nat (start s)))
      (rev (seq 1 (Z.to_nat (start s)))).
Proof.
  intros H. unfold build_countdown_audio in H.
  apply with_tempdir_run in H as (w1 & H & _).
  apply bind_inr in H as (rest & w2 & _ & H).
  apply bind_inr in H as (st0 & w3 & Hl & H).
  apply bind_inr in H as (st1 & w4 & Hf & H).
  apply ret_inr in H as [H _]. inversion H; subst audio tl. clear H.
  apply lead_in_block_skipped in Hl as Hk.
  apply lead_in_block_labels in Hl as [Hl _].
  apply (skipping_loop_labels _ _ _ _ _ (Z.to_nat (start s))) in Hf.
  - rewrite Hf, Hl. reflexivity.
  - lia.
  - rewrite Hk, rests_above_top. cbn. lia.
Qed.

(** *** What a successful run leaves on disk *)

(** X8. After a run of [main] that returns 0, the sidecar path (the
    output path with its suffix replaced by [.json]) holds the JSON dump
    of the timeline the assembler returned; the output path holds the MP3
    encoding, at the configured bitrate, of the segment read back from
    the temporary WAV export, unless it coincides with the sidecar path
    (an output name ending in [.json] is overwritten by the sidecar) or
    with the temporary WAV; the temporary WAV is gone; and every other
    file is as the assembler left it. *)
Theorem main_output_files s w w' :
  main s w = (inr 0, w') ->
  let build :=
    if decide (mode s = "minutes")
    then build_minutes_countdown s "tts_cache"
    else build_countdown_audio s "tts_cache" in
  let tmp_wav := path_join td "combined.wav" in
  exists audio tl w1 final p,
    build w = (inr (audio, tl), w1) /\
    decode_wav (encode_wav audio) = Some final /\
    with_suffix (outfile s) ".json" = Some p /\
    fs w' !! p = Some (json_dump tl) /\
    (outfile s <> p -> outfile s <> tmp_wav ->
     fs w' !! outfile s = Some (encode_mp3 (Some (out_bitrate s)) final)) /\
    (p <> tmp_wav -> fs w' !! tmp_wav = None) /\
    (forall q, q <> p -> q <> outfile s -> q <> tmp_wav ->
       fs w' !! q = fs w1 !! q).
Proof.
  intros H build tmp_wav. unfold main in H.
  apply bind_inr in H as (ready & w0 & Hr & H).
  unfold try_except, ret in Hr. injection Hr as <- <-.
  fold build in H.
  apply bind_inr in H as ([audio tl] & w1 & Hb & H).
  apply bind_inr in H as ([] & w2 & Hx & H).
  apply with_tempdir_world in Hx as (w3 & Hx & ->). cbn zeta in Hx.
  fold tmp_wav in Hx |- *.
  apply bind_inr in Hx as ([] & w4 & Hw & Hx).
  unfold write_file in Hw. destruct (can_write tmp_wav); [|discriminate].
  injection Hw as <-.
  apply bind_inr in Hx as (final & w5 & Hf & Hx).
  unfold from_wav in Hf. apply bind_inr in Hf as (b & w6 & Hrd & Hf).
  unfold read_file in Hrd. cbn [fs] in Hrd. rewrite lookup_insert_eq in Hrd.
  injection Hrd as <- <-.
  destruct (decode_wav (encode_wav audio)) as [seg|] eqn:Ed; [|discriminate].
  apply ret_inr in Hf as [-> <-].
  unfold write_file in Hx. destruct (can_write (outfile s)); [|discriminate].
  injection Hx as <-.
  destruct (with_suffix (outfile s) ".json") as [p|] eqn:Ep; [|discriminate].
  apply bind_inr in H as ([] & w7 & Hj & H). apply ret_inr in H as [_ <-].
  unfold write_file in Hj. destruct (can_write p); [|discriminate].
  injection Hj as <-.
  subst tmp_wav. exists audio, tl, w1, final, p. cbn [fs foldr].
  split; [exact Hb|]. split; [exact Ed|]. split; [reflexivity|].
  split; [apply lookup_insert_eq|]. split; [|split].
  - intros Hp Ht. rewrite lookup_insert_ne by congruence.
    rewrite lookup_delete_ne by congruence. apply lookup_insert_eq.
  - intros Hp. rewrite lookup_insert_ne by congruence.
    apply lookup_delete_eq.
  - intros q Hq Ho Ht. rewrite lookup_insert_ne by congruence.
    rewrite lookup_delete_ne by congruence.
    rewrite !lookup_insert_ne by congruence. reflexivity.
Qed.

(** *** What the desktop front end does *)

(** X9. A call of [generate_countdown] is ignored exactly when a
    generation is running.  It starts a generation exactly when none is
    running, both entries hold numbers, the start and the interval are
    positive, and [countdown_builder.py] exists; it then sets
    [is_generating].  In every other case it shows an error and leaves
    the window as it was. *)
Theorem generate_countdown_outcome g w :
  let o := fst (generate_countdown g w) in
  let g' := snd (generate_countdown g w) in
  (o = Ignored <-> is_generating g = true) /\
  (o = Started <->
   is_generating g = false /\
   (exists n x, start_var g = Some n /\ interval_var g = Some x /\
                0 < n /\ (0 < x)%Q) /\
   is_Some (fs w !! "countdown_builder.py")) /\
  (o = Started -> g' = mkGui true (start_var g) (interval_var g)) /\
  (o <> Started -> g' = g).
Proof.
  unfold generate_countdown.
  destruct (is_generating g) eqn:Eg.
  { cbn. split; [split; reflexivity|]. split; [|split; [discriminate|reflexivity]].
    split; [discriminate|]. intros [H _]. discriminate. }
  destruct (start_var g) as [n|] eqn:En.
  2:{ cbn. split; [split; discriminate|].
      split; [|split; [discriminate|reflexivity]].
      split; [discriminate|]. intros (_ & (n & x & H & _) & _). discriminate. }
  destruct (Z.leb_spec n 0) as [Hn|Hn].
  { cbn. split; [split; discriminate|].
    split; [|split; [discriminate|reflexivity]].
    split; [discriminate|].
    intros (_ & (n0 & x & H & _ & Hpos & _) & _). injection H as <-. lia. }
  destruct (interval_var g) as [x|] eqn:Ex.
  2:{ cbn. split; [split; discriminate|].
      split; [|split; [discriminate|reflexivity]].
      split; [discriminate|].
      intros (_ & (n0 & x & _ & H & _) & _). discriminate. }
  destruct (Qle_bool x 0) eqn:Hx.
  { cbn. split; [split; discriminate|].
    split; [|split; [discriminate|reflexivity]].
    split; [discriminate|].
    intros (_ & (n0 & x0 & _ & H & _ & Hpos) & _). injection H as <-.
    apply Qle_bool_iff in Hx. apply Qlt_not_le in Hpos. contradiction. }
  assert (Hpos : (0 < x)%Q).
  { apply Qnot_le_lt. intros H. apply Qle_bool_iff in H. congruence. }
  destruct (decide (is_Some (fs w !! "countdown_builder.py"))) as [Hs|Hs].
  - rewrite bool_decide_eq_true_2 by exact Hs. cbn.
    split; [split; discriminate|].
    split; [|split; [reflexivity|congruence]].
    split; [|reflexivity]. intros _. split; [reflexivity|].
    split; [|exact Hs]. exists n, x. auto.
  - rewrite bool_decide_eq_false_2 by exact Hs. cbn.
    split; [split; discriminate|].
    split; [|split; [discriminate|reflexivity]].
    split; [discriminate|]. intros (_ & _ & H). contradiction.
Qed.

End Facts.

(** ** The command line *)

Lemma split_go_nonempty sep l cur : split_go sep l cur <> [].
Proof.
  revert cur. induction l as [|c l IH]; intros cur; cbn; [discriminate|].
  destruct (Ascii.eqb c sep); [discriminate|apply IH].
Qed.

Lemma str_split_nonempty sep str : str_split sep str <> [].
Proof.
  unfold str_split. pose proof (split_go_nonempty sep (list_ascii_of_string str) []).
  destruct (split_go _ _ _); [contradiction|discriminate].
Qed.

Lemma map_all_Some {A B} (f : A -> option B) l ys :
  map_all f l = Some ys <-> Forall2 (fun x y => f x = Some y) l ys.
Proof.
  revert ys. induction l as [|x l IH]; intros ys; cbn.
  - split; [intros H; inversion H; constructor|intros H; inversion H; reflexivity].
  - destruct (f x) as [y|] eqn:Ex.
    + destruct (map_all f l) as [ys'|] eqn:El.
      * split.
        -- intros H. inversion H; subst. constructor; [exact Ex|].
           apply IH. reflexivity.
        -- intros H. inversion H as [|? y0 ? ys0 Hy Hys]; subst.
           apply IH in Hys. inversion Hys; subst. congruence.
      * split; [discriminate|].
        intros H. inversion H as [|? y0 ? ys0 Hy Hys]; subst.
        apply IH in Hys. discriminate.
    + split; [discriminate|].
      intros H. inversion H as [|? y0 ? ys0 Hy Hys]; subst. congruence.
Qed.

Lemma map_all_None {A B} (f : A -> option B) l :
  map_all f l = None <-> exists x, x ∈ l /\ f x = None.
Proof.
  induction l as [|x l IH]; cbn.
  - split; [discriminate|]. intros (x & Hx & _). inversion Hx.
  - destruct (f x) as [y|] eqn:Ex.
    + destruct (map_all f l) as [ys|].
      * split; [discriminate|]. intros (x0 & Hx & Hf).
        apply elem_of_cons in Hx as [->|Hx]; [congruence|].
        destruct IH as [_ IH].
        specialize (IH (ex_intro _ x0 (conj Hx Hf))). discriminate.
      * split; [|reflexivity]. intros _.
        destruct IH as [IH _]. destruct (IH eq_refl) as (x0 & Hx & Hf).
        exists x0. split; [right; exact Hx|exact Hf].
    + split; [|reflexivity]. intros _. exists x. split; [left|exact Ex].
Qed.

(** X10. [parse_args] fails exactly when [--speak-at] is a non-empty
    string one of whose comma-separated items, stripped, is not an
    integer.  When it succeeds on a non-empty [--speak-at], the speak-set
    holds the items' integers in order, it is never empty, and from then
    on a minute is spoken exactly when it is in the set, whatever
    [--speak-interval] says; without [--speak-at], or with an empty one,
    no speak-set is configured. *)
Theorem parse_args_speak_at_set (int_of_str : string -> option Z) args :
  ((exists e, parse_args int_of_str args = inl e) <->
   exists str item,
     truthy_str (a_speak_at args) = Some str /\
     item ∈ str_split "," str /\ int_of_str (str_strip item) = None) /\
  forall s, parse_args int_of_str args = inr s ->
    match truthy_str (a_speak_at args) with
    | None => speak_at s = None
    | Some str =>
        exists l,
          speak_at s = Some l /\ l <> [] /\
          Forall2 (fun item z => int_of_str (str_strip item) = Some z)
            (str_split "," str) l /\
          forall m, should_speak_minute m s = bool_decide (m ∈ l)
    end.
Proof.
  unfold parse_args.
  destruct (truthy_str (a_speak_at args)) as [str|] eqn:Et.
  - destruct (map_all _ (str_split "," str)) as [l|] eqn:El.
    + split.
      * split; [intros [e He]; discriminate|].
        intros (str0 & item & Hs & Hi & Hf). injection Hs as <-.
        assert (Hn : map_all (fun x => int_of_str (str_strip x))
                       (str_split "," str) = None).
        { apply map_all_None. exists item. auto. }
        congruence.
      * intros s Hs. injection Hs as <-. cbn [speak_at].
        apply map_all_Some in El.
        assert (Hne : l <> []).
        { intros ->. inversion El as [Hnil|]. symmetry in Hnil.
          exact (str_split_nonempty _ _ Hnil). }
        exists l. split; [reflexivity|]. split; [exact Hne|].
        split; [exact El|]. intros m. unfold should_speak_minute. cbn [speak_at].
        destruct l; [contradiction|reflexivity].
    + split.
      * split; [|intros _; eexists; reflexivity].
        intros _. apply map_all_None in El as (item & Hi & Hf).
        exists str, item. auto.
      * intros s Hs. discriminate.
  - split.
    + split; [intros [e He]; discriminate|].
      intros (str0 & item & Hs & _). discriminate.
    + intros s Hs. injection Hs as <-. reflexivity.
Qed.


(** ** Across calls and runs *)

(** C8. Once a call to [tts_cached] has stored a result for a triple,
    any later call for the same triple, in any world that still holds
    those bytes at the cache path (the same run or a later one, whatever
    the service does by then), returns the audio decoded from those same
    bytes and leaves the world as it was: no request is made and nothing
    is written. *)
Theorem tts_cached_reuses_cache `{AB : AudioBackend}
    (md5 : string -> string) gtts1 gtts2 cw1 cw2
    text cache tmp1 tmp2 lang tld r1 r2 d1 d2 w seg w1 :
  tts_cached md5 gtts1 cw1 text cache tmp1 lang tld r1 d1 w = (inr seg, w1) ->
  exists b,
    fs w1 !! cache_path md5 cache text lang tld = Some b /\
    decode_mp3 b = Some seg /\
    forall w2,
      fs w2 !! cache_path md5 cache text lang tld = Some b ->
      tts_cached md5 gtts2 cw2 text cache tmp2 lang tld r2 d2 w2 = (inr seg, w2).
Proof.
  intros H. apply tts_cached_stored in H as (b & Hb & Hd).
  exists b. split; [exact Hb|]. split; [exact Hd|].
  intros w2 H2. eapply tts_cached_hit; eauto.
Qed.

(** C10. The cache key is the digest of ["lang|tld|text"], and nothing
    escapes the delimiter: the distinct triples (text ["x|y"], lang
    ["en"], tld ["com"]) and (text ["y"], lang ["en"], tld ["com|x"]) have
    the same key under every digest function, and a call for the second,
    after one for the first has stored its result, returns the audio of
    the first without any request.  The last part runs both calls, the
    second against a service that never answers. *)
Theorem cache_key_not_injective :
  ("x|y", "en", "com") <> ("y", "en", "com|x") /\
  (forall md5, cache_key md5 "x|y" "en" "com" = cache_key md5 "y" "en" "com|x") /\
  (forall (AB : AudioBackend) md5 gtts1 gtts2 cw1 cw2 cache tmp1 tmp2
          r1 r2 d1 d2 w seg w1,
     tts_cached md5 gtts1 cw1 "x|y" cache tmp1 "en" "com" r1 d1 w = (inr seg, w1) ->
     tts_cached md5 gtts2 cw2 "y" cache tmp2 "en" "com|x" r2 d2 w1 = (inr seg, w1)) /\
  (let first := Toy.cached_run Toy.service "x|y" "en" "com" Toy.empty_world in
   fst first = inr [(Toy.Voice, 300)] /\
   Toy.cached_run Toy.no_service "y" "en" "com|x" (snd first) =
   (inr [(Toy.Voice, 300)], snd first)).
Proof.
  split; [discriminate|]. split; [reflexivity|]. split.
  - intros AB md5 gtts1 gtts2 cw1 cw2 cache tmp1 tmp2 r1 r2 d1 d2 w seg w1 H.
    apply tts_cached_stored in H as (b & Hb & Hd).
    eapply tts_cached_hit; [|exact Hd]. exact Hb.
  - split; vm_compute; reflexivity.
Qed.

(** C9. In numbers mode the rest cue is synthesized first, whatever
    [every_n] is: when that synthesis fails the build fails with the same
    error; yet with [every_n <= 0] the loop does not depend on the rest
    segment at all.  The minutes assembler with [every_n <= 0] starts with
    the lead-in and passes no rest segment.  On a service that cannot
    speak the rest text, with [every_n = 0], the numbers build fails and
    the minutes build succeeds. *)
Theorem rest_cue_synthesized_unconditionally :
  (forall (AB : AudioBackend) md5 gtts cw td s cache w e w1,
     tts_cached md5 gtts cw (rest_text s) cache td (lang s) (tld s) 3 1.2%Q w
       = (inl e, w1) ->
     exists w', build_countdown_audio md5 gtts cw td s cache w = (inl e, w') /\
                log w' = log w1) /\
  (forall (AB : AudioBackend) md5 gtts cw s cache tmp r1 r2 beep n st w,
     every_n s <= 0 ->
     for_range_down n (countdown_iteration md5 gtts cw s cache tmp r1 beep) st w =
     for_range_down n (countdown_iteration md5 gtts cw s cache tmp r2 beep) st w) /\
  (forall (AB : AudioBackend) md5 gtts cw td s cache w,
     every_n s <= 0 ->
     build_minutes_countdown md5 gtts cw td s cache w =
     with_tempdir td ["tts_tmp.mp3"] (fun tmpdir =>
       bind (lead_in_block md5 gtts cw s cache tmpdir initial_state) (fun st =>
       bind (for_range_down (Z.to_nat (start s))
               (minutes_iteration md5 gtts cw s cache tmpdir None
                  (make_beep (beep_freq s) (beep_ms s) (beep_gain s))) st)
            (fun st => ret (combined st, timeline st)))) w) /\
  (let s := Toy.with_counts Toy.defaults 3 0 0 in
   fst (Toy.numbers_run (Toy.service_without "rest") s) =
     inl (RuntimeError "rest" (Some TTSError)) /\
   Toy.labels_of (Toy.minutes_run (Toy.service_without "rest") s) =
     Some ["3 minutes remaining"; "beep"; "pause";
           "2 minutes remaining"; "beep"; "pause"; "1 minute remaining"]).
Proof.
  split; [|split; [|split]].
  - intros. eapply build_countdown_audio_needs_rest; eauto.
  - intros. apply countdown_loop_without_rests; assumption.
  - intros. apply build_minutes_countdown_without_rests; assumption.
  - split; vm_compute; reflexivity.
Qed.

(** C2 (what the code does). The desktop front end refuses a start or an
    interval that is not positive, but the command line does not:
    [parse_args] hands [--start 0] on as it is, and [main] then requests
    the rest cue from the speech service, writes the (empty) track and
    its sidecar, and returns 0; with [interval = 0] it returns 0 as
    well. *)
Theorem main_accepts_nonpositive_start :
  let s0 := Toy.with_counts Toy.defaults 0 8 0 in
  let s1 := Toy.with_interval (Toy.with_counts Toy.defaults 2 0 0) 0 in
  parse_args Toy.decimal (Toy.options 0 "numbers" None) = inr s0 /\
  gui_validate s0 = Some "Starting number must be positive" /\
  fst (Toy.main_run Toy.service s0) = inr 0 /\
  log (snd (Toy.main_run Toy.service s0)) =
    [EvRequest "rest" "en" "com" true;
     EvWrite TtsTmp "/tmp/td/tts_tmp.mp3";
     EvWrite CacheStore "tts_cache/en|com|rest.mp3";
     EvWrite TmpWav "/tmp/td/combined.wav";
     EvWrite AudioOut "countdown_combined.mp3";
     EvWrite TimelineOut "countdown_combined.json"] /\
  gui_validate s1 = Some "Interval must be positive" /\
  fst (Toy.main_run Toy.service s1) = inr 0.
Proof. repeat split; vm_compute; reflexivity. Qed.

(** ** The web front end *)

Section WebFacts.

Variable executable : string.
Variable subprocess_run : list string -> string + (Z * string * string).

Lemma add_param_fold_None params pm :
  foldl (fun acc entry =>
           match acc with
           | Some cmd => add_param params cmd entry
           | None => None
           end) None pm = None.
Proof. induction pm as [|e pm IH]; [reflexivity|exact IH]. Qed.

Lemma add_param_fold params pm : forall cmd,
  foldl (fun acc entry =>
           match acc with
           | Some cmd => add_param params cmd entry
           | None => None
           end) (Some cmd) pm =
  if existsb (fun entry => bool_decide (params !! entry.1 = Some [])) pm
  then None
  else Some (cmd ++ flat_map (field_args params) pm).
Proof.
  induction pm as [|[param flag] pm IH]; intros cmd.
  - cbn. rewrite app_nil_r. reflexivity.
  - cbn [foldl existsb flat_map fst snd]. unfold add_param at 2, field_args at 1.
    cbn [fst snd].
    destruct (params !! param) as [[|v l]|] eqn:E.
    + rewrite (bool_decide_eq_true_2 (Some [] = Some [])) by reflexivity.
      apply add_param_fold_None.
    + rewrite (bool_decide_eq_false_2 (Some (v :: l) = Some []))
        by discriminate.
      cbn [orb].
      destruct (String.eqb (str_strip v) ""); cbn [negb orb].
      * destruct (bool_decide (param ∈ numeric_params)); apply IH.
      * rewrite IH. destruct (existsb _ pm); [reflexivity|].
        rewrite <- app_assoc. reflexivity.
    + rewrite (bool_decide_eq_false_2 (None = Some [])) by discriminate.
      apply IH.
Qed.

(** X11. The command the web front end runs is the interpreter and the
    script followed, in the order of [param_map], by the flag and the
    stripped first value of every form field that is present and not
    blank.  A blank field is dropped whether or not it is one of the
    "numeric parameters", so that list has no effect; and no command is
    built when a mapped field has an empty value list. *)
Theorem generate_cmd_closed_form params :
  generate_cmd executable params =
  if existsb (fun entry => bool_decide (params !! entry.1 = Some [])) param_map
  then None
  else Some ([executable; "countdown_builder.py"] ++
             flat_map (field_args params) param_map).
Proof. unfold generate_cmd. apply add_param_fold. Qed.

Lemma generate_not_running params :
  running (generate executable subprocess_run params) = false /\
  (forall f, file (generate executable subprocess_run params) = Some f ->
     exists cmd out err,
       generate_cmd executable params = Some cmd /\
       subprocess_run cmd = inr (0, out, err)).
Proof.
  unfold generate. destruct (generate_cmd executable params) as [cmd|].
  2:{ split; [reflexivity|discriminate]. }
  destruct (subprocess_run cmd) as [msg|[[code out] err]] eqn:Er.
  { split; [reflexivity|discriminate]. }
  destruct (Z.eqb_spec code 0) as [->|Hc].
  - destruct (default _ _); (split; [reflexivity|]); [discriminate|].
    intros f _. eauto.
  - split; [reflexivity|discriminate].
Qed.

(** X12. In every state the server can reach, the status says "running"
    exactly when a worker thread is pending, and then there is exactly
    one and no file is offered: a form posted during a generation starts
    nothing.  A file is offered only when the builder command of the
    last finished generation returned 0. *)
Theorem one_generation_at_a_time sv :
  reachable executable subprocess_run sv ->
  (if running (generation_status sv)
   then (exists params, threads sv = [params]) /\
        file (generation_status sv) = None
   else threads sv = []) /\
  (forall f, file (generation_status sv) = Some f ->
     exists params cmd out err,
       generation_status sv = generate executable subprocess_run params /\
       generate_cmd executable params = Some cmd /\
       subprocess_run cmd = inr (0, out, err)).
Proof.
  induction 1 as [|sv sv' Hr [IH1 IH2] Hs].
  - split; [reflexivity|discriminate].
  - destruct Hs as [params sv|l1 params l2 sv Ht].
    + unfold start_generation.
      destruct (running (generation_status sv)) eqn:Er.
      * rewrite Er. split; [exact IH1|exact IH2].
      * cbn. rewrite IH1. split; [|discriminate].
        split; [eexists; reflexivity|reflexivity].
    + destruct (generate_not_running params) as [Hn Hf].
      cbn [generation_status threads]. rewrite Hn.
      destruct (running (generation_status sv)).
      * destruct IH1 as [[p0 Hp] _]. rewrite Hp in Ht.
        destruct l1 as [|x [|y l1]]; cbn in Ht; [|discriminate..].
        injection Ht as _ <-. split; [reflexivity|].
        intros f Hfile. destruct (Hf f Hfile) as (cmd & out & err & Hc & Hrun).
        eauto 10.
      * rewrite IH1 in Ht. destruct l1; discriminate.
Qed.

End WebFacts.

(** ** Runs on the executable backend *)

Example parse_args_defaults :
  parse_args Toy.decimal Toy.no_options = inr Toy.defaults.
Proof. reflexivity. Qed.

Example parse_args_speak_at :
  parse_args Toy.decimal (Toy.options 5 "minutes" (Some "5, 1")) =
  inr (Toy.with_speak_at (Toy.with_counts Toy.defaults 5 8 0) [5; 1]) /\
  parse_args Toy.decimal (Toy.options 5 "minutes" (Some "5;1")) =
  inl (ValueError
         "--speak-at must be comma-separated integers (e.g., '30,15,10,5,1')").
Proof. split; vm_compute; reflexivity. Qed.

Example with_suffix_examples :
  with_suffix "countdown_combined.mp3" ".json" = Some "countdown_combined.json" /\
  with_suffix "out/take.2.mp3" ".json" = Some "out/take.2.json" /\
  with_suffix "out.d/track" ".json" = Some "out.d/track.json" /\
  with_suffix "." ".json" = None.
Proof. repeat split; vm_compute; reflexivity. Qed.

(** Numbers mode, [start = 3], rests disabled: no rest cue ever fires. *)
Example countdown_from_3 :
  Toy.labels_of (Toy.numbers_run Toy.service (Toy.with_counts Toy.defaults 3 0 0)) =
  Some ["3"; "beep"; "pause"; "2"; "beep"; "pause"; "1"].
Proof. vm_compute; reflexivity. Qed.

(** Minutes mode, [speak_at = [5, 1]], [start = 5]: only minutes 5 and 1
    are spoken; the gap after minute 5 is a full minute, the gaps after
    the silent minutes last [interval] seconds. *)
Example minutes_speak_at_5_1 :
  let run :=
    Toy.minutes_run Toy.service
      (Toy.with_speak_at (Toy.with_counts Toy.defaults 5 0 0) [5; 1]) in
  Toy.labels_of run =
    Some ["5 minutes remaining"; "beep"; "pause"; "beep"; "pause";
          "beep"; "pause"; "beep"; "pause"; "1 minute remaining"] /\
  map (fun e => e_end e - e_start e) (Toy.timeline_of run) =
    [1900; 300; 60000; 300; 3500; 300; 3500; 300; 3500; 1800].
Proof. split; vm_compute; reflexivity. Qed.

(** C1 as the specification words it fails: at count 4 the timeline has
    the true rest cue, not the skipped one, which sits at count 8. *)
Lemma skip_first_rest_at_count_4_refuted :
  exists labels,
    Toy.labels_of (Toy.numbers_run Toy.service Toy.skip_example) = Some labels /\
    labels_between "4" "3" labels = ["rest"; "beep"; "pause_long"] /\
    labels_between "4" "3" labels <> ["beep_skip_rest"; "pause_skip_rest"] /\
    labels_between "8" "7" labels = ["beep_skip_rest"; "pause_skip_rest"].
Proof.
  eexists. split; [vm_compute; reflexivity|].
  split; [reflexivity|]. split; [discriminate|reflexivity].
Qed.

(** C3. The last entry of the timeline does not always end at the
    duration of the track, and an entry does not always span its
    segment: with a positive start and interval and
    [--long-interval -1], the rest pause is recorded from 800 to -200
    while the silence appended for it is empty, and the last entry ends
    at -100 on a track of 900 ms. *)
Lemma timeline_end_differs_from_track :
  let s := Toy.with_long_interval (Toy.with_counts Toy.defaults 2 2 0) (-1) in
  let run := Toy.numbers_run Toy.service s in
  let audio := Toy.audio_of run in
  let tl := Toy.timeline_of run in
  0 < start s /\ (0 < interval s)%Q /\
  run = (inr (audio, tl), snd run) /\
  tl = [mkEntry "2" 0 100; mkEntry "rest" 100 500; mkEntry "beep" 500 800;
        mkEntry "pause_long" 800 (-200); mkEntry "1" (-200) (-100)] /\
  seg_len (AudioBackend:=Toy.backend) audio = 900 /\
  seg_len (AudioBackend:=Toy.backend)
    (silent (py_int (float_mul (long_interval s) 1000)) 11025) = 0 /\
  (exists e, last tl = Some e /\
             e_end e <> seg_len (AudioBackend:=Toy.backend) audio) /\
  (exists e, tl !! 3%nat = Some e /\ e_end e < e_start e).
Proof.
  intros s run audio tl.
  split; [cbn; lia|]. split; [reflexivity|].
  split; [vm_compute; reflexivity|]. split; [vm_compute; reflexivity|].
  split; [vm_compute; reflexivity|]. split; [vm_compute; reflexivity|].
  split.
  - eexists. split; [vm_compute; reflexivity|]. vm_compute. discriminate.
  - eexists. split; [vm_compute; reflexivity|]. cbn. lia.
Qed.

(** Floats: a product is rounded before [int()] truncates it, and a
    decimal numeral is rounded when it is read. *)
Example float_products :
  py_int (float_mul 3.5 1000) = 3500 /\
  py_int (float_mul 8.0 1000) = 8000 /\
  py_int (float_mul 1.001 1000) = 1000 /\
  py_int (float_mul 4.35 1000) = 4350 /\
  py_int (float_mul (-1) 1000) = -1000 /\
  Qeq_bool (float64 0.1) (3602879701896397 # 36028797018963968) = true.
Proof. repeat split; vm_compute; reflexivity. Qed.

Example path_examples :
  Path "countdown_combined.mp3" = "countdown_combined.mp3" /\
  Path "out/" = "out" /\ Path "./out//take.mp3" = "out/take.mp3" /\
  Path "" = "." /\ Path "//srv/a" = "//srv/a" /\ Path "///srv/a" = "/srv/a".
Proof. repeat split; vm_compute; reflexivity. Qed.

(** Instances of the theorems above. *)

#[local] Existing Instance Toy.backend.

Lemma should_speak_minute_decision_witness :
  (forall l : list Z, speak_at Toy.defaults = Some l -> l <> [] ->
     (should_speak_minute 5 Toy.defaults = true <-> 5 ∈ l)) /\
  (speak_at Toy.defaults = None \/ speak_at Toy.defaults = Some [] ->
     0 < speak_interval Toy.defaults ->
     (should_speak_minute 5 Toy.defaults = true <->
      (5 mod speak_interval Toy.defaults = 0 \/ 5 = 1))) /\
  (speak_at Toy.defaults = None \/ speak_at Toy.defaults = Some [] ->
     speak_interval Toy.defaults <= 0 ->
     should_speak_minute 5 Toy.defaults = true).
Proof. apply (should_speak_minute_decision 5 Toy.defaults). lia. Defined.

Lemma skip_first_rest_labels_witness :
  let labels :=
    ["8"; "beep_skip_rest"; "pause_skip_rest";
     "7"; "beep"; "pause"; "6"; "beep"; "pause"; "5"; "beep"; "pause";
     "4"; "rest"; "beep"; "pause_long";
     "3"; "beep"; "pause"; "2"; "beep"; "pause"; "1"] in
  (forall audio tl w',
     build_countdown_audio Toy.digest Toy.service Toy.writable Toy.tmp
       Toy.skip_example Toy.cache Toy.empty_world = (inr (audio, tl), w') ->
     map e_label tl = labels) /\
  exists audio tl w',
    build_countdown_audio Toy.digest Toy.service Toy.writable Toy.tmp
      Toy.skip_example Toy.cache Toy.empty_world = (inr (audio, tl), w') /\
    map e_label tl = labels.
Proof.
  intros labels.
  destruct (skip_first_rest_labels (AB:=Toy.backend) Toy.digest Toy.service
              Toy.writable Toy.tmp Toy.skip_example Toy.cache Toy.empty_world
              eq_refl eq_refl eq_refl eq_refl eq_refl) as [Hall Hex].
  split; [exact Hall|]. apply Hex.
  - intros n text lang tld. eexists. split; [reflexivity|]. eexists; reflexivity.
  - reflexivity.
  - intros seg. eexists; reflexivity.
  - intros text lang tld b H.
    change (fs Toy.empty_world) with (∅ : gmap string bytes) in H.
    rewrite lookup_empty in H. discriminate.
Defined.

Lemma timeline_contiguous_exhaustive_witness :
  let run := Toy.numbers_run Toy.service (Toy.with_counts Toy.defaults 2 2 0) in
  let audio := Toy.audio_of run in
  let tl := Toy.timeline_of run in
  run = (inr (audio, tl), snd run) /\
  tl = [mkEntry "2" 0 100; mkEntry "rest" 100 500; mkEntry "beep" 500 800;
        mkEntry "pause_long" 800 8800; mkEntry "1" 8800 8900] /\
  (forall e, head tl = Some e -> e_start e = 0) /\
  (forall i e1 e2,
     tl !! i = Some e1 -> tl !! S i = Some e2 -> e_start e2 = e_end e1) /\
  (exists segs,
     audio = concat_onto (silent 0 TARGET_RATE) segs /\
     Forall2 records tl segs).
Proof.
  intros run audio tl.
  assert (Hrun : run = (inr (audio, tl), snd run)) by (vm_compute; reflexivity).
  split; [exact Hrun|]. split; [vm_compute; reflexivity|].
  exact (timeline_contiguous_exhaustive (AB:=Toy.backend) Toy.digest
           Toy.service Toy.writable Toy.tmp (Toy.with_counts Toy.defaults 2 2 0)
           Toy.cache Toy.empty_world audio tl (snd run) (or_introl Hrun)).
Defined.


Lemma tts_retry_attempts_witness :
  let run := Toy.retry_run (Toy.service_after 2) 3 in
  let attempt i :=
    attempt_at (Toy.service_after 2) Toy.writable "rest"
      (path_join Toy.tmp "tts_tmp.mp3") "en" "com"
      (requests Toy.empty_world + i) in
  (0 < 1.2)%Q /\
  exists evs,
    log (snd run) = log Toy.empty_world ++ evs /\
    (count_requests evs <= Z.to_nat 3)%nat /\
    length (sleeps evs) = Nat.pred (count_requests evs) /\
    sleeps evs = backoff 1.2 0 (length (sleeps evs)) /\
    StronglySorted Qlt (sleeps evs) /\
    (forall seg,
       fst run = inr seg <->
       exists k, (k < Z.to_nat 3)%nat /\ attempt k = Some seg /\
                 forall i, (i < k)%nat -> attempt i = None) /\
    ((exists e, fst run = inl e) <->
     forall i, (i < Z.to_nat 3)%nat -> attempt i = None) /\
    (forall e, fst run = inl e -> exists last, e = RuntimeError "rest" last).
Proof.
  intros run attempt.
  assert (Hd : (0 < 1.2)%Q) by reflexivity.
  split; [exact Hd|].
  exact (tts_retry_attempts (AB:=Toy.backend) (Toy.service_after 2) Toy.writable "rest" Toy.tmp
           "en" "com" 3 1.2%Q Toy.empty_world (fst run) (snd run) Hd
           (surjective_pairing run)).
Defined.

Lemma main_all_or_nothing_witness :
  let s := Toy.skip_example in
  let run := Toy.main_run Toy.service s in
  let build :=
    if decide (mode s = "minutes")
    then build_minutes_countdown Toy.digest Toy.service Toy.writable Toy.tmp s
           "tts_cache"
    else build_countdown_audio Toy.digest Toy.service Toy.writable Toy.tmp s
           "tts_cache" in
  let wav := EvWrite TmpWav (path_join Toy.tmp "combined.wav") in
  let out := EvWrite AudioOut (outfile s) in
  run = (inr 0, snd run) /\
  (forall e w1, build Toy.empty_world = (inl e, w1) ->
     inr 0 = inl e /\ snd run = w1 /\
     log_extends assembly_event Toy.empty_world (snd run)) /\
  exists evs tail,
    log (snd run) = log Toy.empty_world ++ evs ++ tail /\
    Forall assembly_event evs /\
    (((exists e, @inr exn Z 0 = inl e) /\
      (tail = [] \/ tail = [wav] \/ tail = [wav; out])) \/
     (@inr exn Z 0 = inr 0 /\
      exists p stem ext,
        with_suffix (outfile s) ".json" = Some p /\
        outfile s = stem +:+ ext /\ p = stem +:+ ".json" /\
        (String.length ext <= suffix_length (path_name (outfile s)))%nat /\
        tail = [wav; out; EvWrite TimelineOut p])).
Proof.
  intros s run build wav out.
  assert (Hrun : run = (inr 0, snd run)) by (vm_compute; reflexivity).
  split; [exact Hrun|].
  exact (main_all_or_nothing (AB:=Toy.backend) Toy.digest Toy.service Toy.writable Toy.tmp
           Toy.dump s Toy.empty_world (inr 0) (snd run) Hrun).
Defined.

Lemma tts_cached_reuses_cache_witness :
  let first := Toy.cached_run Toy.service "rest" "en" "com" Toy.empty_world in
  let seg := [(Toy.Voice, 400)] in
  first = (inr seg, snd first) /\
  exists b,
    fs (snd first) !! cache_path Toy.digest Toy.cache "rest" "en" "com" = Some b /\
    decode_mp3 b = Some seg /\
    forall w2,
      fs w2 !! cache_path Toy.digest Toy.cache "rest" "en" "com" = Some b ->
      tts_cached Toy.digest Toy.no_service Toy.writable "rest" Toy.cache
        "/tmp/other" "en" "com" 3 1.2%Q w2 = (inr seg, w2).
Proof.
  intros first seg.
  assert (Hrun : first = (inr seg, snd first)) by (vm_compute; reflexivity).
  split; [exact Hrun|].
  exact (tts_cached_reuses_cache (AB:=Toy.backend) Toy.digest Toy.service Toy.no_service
           Toy.writable Toy.writable "rest" Toy.cache Toy.tmp "/tmp/other"
           "en" "com" 3 3 1.2%Q 1.2%Q Toy.empty_world seg (snd first) Hrun).
Defined.

Lemma assembler_keeps_files_witness :
  let w0 := mkWorld ({["notes.txt" := [Byte.x07]]} : gmap string bytes) [] in
  let run :=
    build_countdown_audio Toy.digest Toy.service Toy.writable Toy.tmp
      (Toy.with_counts Toy.defaults 3 0 0) Toy.cache w0 in
  fs (snd run) !! path_join Toy.tmp "tts_tmp.mp3" = None /\
  forall p b,
    p <> path_join Toy.tmp "tts_tmp.mp3" ->
    fs w0 !! p = Some b -> fs (snd run) !! p = Some b.
Proof.
  intros w0 run.
  exact (assembler_keeps_files (AB:=Toy.backend) Toy.digest Toy.service
           Toy.writable Toy.tmp (Toy.with_counts Toy.defaults 3 0 0) Toy.cache
           w0 (fst run) (snd run) (or_introl (surjective_pairing run))).
Defined.

Lemma assembler_second_run_witness :
  let s := Toy.with_counts Toy.defaults 3 0 0 in
  let run := Toy.numbers_run Toy.service s in
  let r := (Toy.audio_of run, Toy.timeline_of run) in
  (forall text lang tld,
     cache_path Toy.digest Toy.cache text lang tld <>
     path_join Toy.tmp "tts_tmp.mp3") /\
  run = (inr r, snd run) /\
  build_countdown_audio Toy.digest Toy.service Toy.writable Toy.tmp s
    Toy.cache (snd run) = (inr r, snd run).
Proof.
  intros s run r.
  assert (Hp : forall text lang tld,
             cache_path Toy.digest Toy.cache text lang tld <>
             path_join Toy.tmp "tts_tmp.mp3").
  { intros text lang tld H. unfold cache_path, path_join in H. cbn in H.
    discriminate H. }
  assert (Hrun : run = (inr r, snd run)) by (vm_compute; reflexivity).
  split; [exact Hp|]. split; [exact Hrun|].
  exact (proj1 (assembler_second_run (AB:=Toy.backend) Toy.digest Toy.service
                  Toy.writable Toy.tmp Toy.cache Hp s Toy.empty_world r
                  (snd run)) Hrun).
Defined.

Lemma tts_cached_hit_or_miss_witness :
  let run := Toy.cached_run Toy.service "rest" "en" "com" Toy.empty_world in
  let path := cache_path Toy.digest Toy.cache "rest" "en" "com" in
  (forall b, fs Toy.empty_world !! path = Some b ->
     snd run = Toy.empty_world /\
     fst run = match decode_mp3 b with
               | Some seg => inr seg
               | None => inl CouldntDecodeError
               end) /\
  (fs Toy.empty_world !! path = None ->
   (requests (snd run) <= requests Toy.empty_world + Z.to_nat 3)%nat /\
   (0 < 3 -> (requests Toy.empty_world < requests (snd run))%nat)).
Proof.
  intros run path.
  exact (tts_cached_hit_or_miss (AB:=Toy.backend) Toy.digest Toy.service
           Toy.writable "rest" Toy.cache Toy.tmp "en" "com" 3 1.2%Q
           Toy.empty_world (fst run) (snd run) (surjective_pairing run)).
Defined.

Lemma assembler_without_counts_witness :
  let s :=
    Toy.with_phrases (Toy.with_counts Toy.defaults 0 8 0) (Some "Get ready")
      None in
  let run := Toy.numbers_run Toy.service s in
  let audio := Toy.audio_of run in
  let tl := Toy.timeline_of run in
  start s <= 0 /\
  run = (inr (audio, tl), snd run) /\
  map e_label tl = ["Get ready"; "lead_gap"] /\
  (truthy_str (lead_in s) = None -> tl = [] /\ audio = silent 0 TARGET_RATE).
Proof.
  intros s run audio tl.
  assert (Hs : start s <= 0) by (cbn; lia).
  assert (Hrun : run = (inr (audio, tl), snd run)) by (vm_compute; reflexivity).
  split; [exact Hs|]. split; [exact Hrun|].
  exact (assembler_without_counts (AB:=Toy.backend) Toy.digest Toy.service
           Toy.writable Toy.tmp s Toy.cache Toy.empty_world audio tl (snd run)
           Hs (or_introl Hrun)).
Defined.

Lemma plain_countdown_labels_witness :
  let s := Toy.with_counts Toy.defaults 3 0 0 in
  let run := Toy.numbers_run Toy.service s in
  let audio := Toy.audio_of run in
  let tl := Toy.timeline_of run in
  every_n s <= 0 /\
  run = (inr (audio, tl), snd run) /\
  map e_label tl =
    lead_in_labels s ++ plain_labels (Z.to_nat (start s)) ++
    (if 0 <? start s then end_labels s else []) /\
  (0 < start s ->
   length tl = (length (lead_in_labels s) + (3 * Z.to_nat (start s) - 2) +
                length (end_labels s))%nat).
Proof.
  intros s run audio tl.
  assert (He : every_n s <= 0) by (cbn; lia).
  assert (Hrun : run = (inr (audio, tl), snd run)) by (vm_compute; reflexivity).
  split; [exact He|]. split; [exact Hrun|].
  exact (plain_countdown_labels (AB:=Toy.backend) Toy.digest Toy.service
           Toy.writable Toy.tmp s Toy.cache Toy.empty_world audio tl (snd run)
           He Hrun).
Defined.

Lemma timeline_last_entry_witness :
  let s := Toy.skip_example in
  let run := Toy.numbers_run Toy.service s in
  let m := Toy.with_speak_at (Toy.with_counts Toy.defaults 3 0 0) [3] in
  let mrun := Toy.minutes_run Toy.service m in
  0 < start s /\ 0 < start m /\
  run = (inr (Toy.audio_of run, Toy.timeline_of run), snd run) /\
  mrun = (inr (Toy.audio_of mrun, Toy.timeline_of mrun), snd mrun) /\
  (exists e, last (Toy.timeline_of run) = Some e /\ e_label e = "1") /\
  (exists e, last (Toy.timeline_of mrun) = Some e /\
             e_label e ∈ ["pause"; "pause_long"; "pause_skip_rest"]).
Proof.
  intros s run m mrun.
  assert (Hs : 0 < start s) by (cbn; lia).
  assert (Hm : 0 < start m) by (cbn; lia).
  assert (H1 : 1 < start m) by (cbn; lia).
  assert (Hrun : run = (inr (Toy.audio_of run, Toy.timeline_of run), snd run))
    by (vm_compute; reflexivity).
  assert (Hmrun :
            mrun = (inr (Toy.audio_of mrun, Toy.timeline_of mrun), snd mrun))
    by (vm_compute; reflexivity).
  split; [exact Hs|]. split; [exact Hm|]. split; [exact Hrun|].
  split; [exact Hmrun|]. split.
  - exact (proj1 (timeline_last_entry (AB:=Toy.backend) Toy.digest Toy.service
                    Toy.writable Toy.tmp s Toy.cache Toy.empty_world
                    (Toy.audio_of run) (Toy.timeline_of run) (snd run) Hs)
             Hrun).
  - exact (proj2 (proj2 (proj2 (proj2
             (timeline_last_entry (AB:=Toy.backend) Toy.digest Toy.service
                Toy.writable Toy.tmp m Toy.cache Toy.empty_world
                (Toy.audio_of mrun) (Toy.timeline_of mrun) (snd mrun) Hm)
             Hmrun)) eq_refl eq_refl) H1).
Defined.

Lemma skipped_rests_come_first_witness :
  let s := Toy.with_counts Toy.defaults 12 4 2 in
  let run := Toy.numbers_run Toy.service s in
  let audio := Toy.audio_of run in
  let tl := Toy.timeline_of run in
  run = (inr (audio, tl), snd run) /\
  map e_label tl =
    lead_in_labels s ++
    flat_map (count_labels s (Z.to_nat (start s)))
      (rev (seq 1 (Z.to_nat (start s)))).
Proof.
  intros s run audio tl.
  assert (Hrun : run = (inr (audio, tl), snd run)) by (vm_compute; reflexivity).
  split; [exact Hrun|].
  exact (skipped_rests_come_first (AB:=Toy.backend) Toy.digest Toy.service
           Toy.writable Toy.tmp s Toy.cache Toy.empty_world audio tl (snd run)
           Hrun).
Defined.

Lemma main_output_files_witness :
  let s := Toy.with_counts Toy.defaults 3 0 0 in
  let run := Toy.main_run Toy.service s in
  let w' := snd run in
  let build :=
    if decide (mode s = "minutes")
    then build_minutes_countdown Toy.digest Toy.service Toy.writable Toy.tmp s
           "tts_cache"
    else build_countdown_audio Toy.digest Toy.service Toy.writable Toy.tmp s
           "tts_cache" in
  let tmp_wav := path_join Toy.tmp "combined.wav" in
  run = (inr 0, w') /\
  exists audio tl w1 final p,
    build Toy.empty_world = (inr (audio, tl), w1) /\
    decode_wav (encode_wav audio) = Some final /\
    with_suffix (outfile s) ".json" = Some p /\
    fs w' !! p = Some (Toy.dump tl) /\
    (outfile s <> p -> outfile s <> tmp_wav ->
     fs w' !! outfile s = Some (encode_mp3 (Some (out_bitrate s)) final)) /\
    (p <> tmp_wav -> fs w' !! tmp_wav = None) /\
    (forall q, q <> p -> q <> outfile s -> q <> tmp_wav ->
       fs w' !! q = fs w1 !! q).
Proof.
  intros s run w' build tmp_wav.
  assert (Hrun : run = (inr 0, w')) by (vm_compute; reflexivity).
  split; [exact Hrun|].
  exact (main_output_files (AB:=Toy.backend) Toy.digest Toy.service
           Toy.writable Toy.tmp Toy.dump s Toy.empty_world w' Hrun).
Defined.

Lemma one_generation_at_a_time_witness :
  let run := fun _ : list string => @inr string (Z * string * string) (0, "", "") in
  let form : gmap string (list string) := {["start" := ["3"]]} in
  let sv := start_generation form initial_server in
  reachable "python3" run sv /\
  (if running (generation_status sv)
   then (exists params, threads sv = [params]) /\
        file (generation_status sv) = None
   else threads sv = []) /\
  (forall f, file (generation_status sv) = Some f ->
     exists params cmd out err,
       generation_status sv = generate "python3" run params /\
       generate_cmd "python3" params = Some cmd /\
       run cmd = inr (0, out, err)).
Proof.
  intros run form sv.
  assert (Hr : reachable "python3" run sv).
  { apply (reach_step "python3" run initial_server sv).
    - apply reach_initial.
    - apply (step_post "python3" run form initial_server). }
  split; [exact Hr|].
  exact (one_generation_at_a_time "python3" run sv Hr).
Defined.
